(** * B1-shimming: the numerical cells of the Jupyter book

    A shallow embedding of the code cells of [book/content/complex_shimming.ipynb]
    and [book/content/phase_only.ipynb]: the combined field [b1_maps @ weights],
    the masks, the ROI matrix [b1_roi], the cost functions handed to
    [scipy.optimize.minimize] and the SAR evaluation [max_SAR].

    Numbers.  NumPy's [float64] and [complex128] are read as exact reals and
    exact complex numbers (pairs of reals): every statement below is about the
    arithmetic the cells denote, not about rounding.  A float that is not a
    finite number ([nan], [inf]) is [None] in the type [float].  A quantity
    that vanishes only by exact cancellation of sines and cosines need not
    be zero in [float64]; nothing below rests on such a zero.

    Arrays.  A 1-D array is a list; a 2-D array is its list of rows together
    with the number of columns (a matrix with no row still has a column
    count, as [shape] does in NumPy); a 3-D array is its shape and its
    indexing function.

    Exceptions.  A cell that raises is [Raise e]; the exceptions that the
    modelled operations can raise are [ValueError] (operands whose shapes do
    not fit, [np.max] of an empty array), [IndexError] and
    [ZeroDivisionError]. *)

From Stdlib Require Import Reals Lra Lia List Arith Bool ZArith Permutation.
Import ListNotations.

Open Scope R_scope.

(* ================================================================== *)
(** ** Complex numbers *)

Record C : Type := mkC { Re : R; Im : R }.

Declare Scope C_scope.
Delimit Scope C_scope with C.
Bind Scope C_scope with C.

Definition RtoC (x : R) : C := mkC x 0.
Definition C0 : C := RtoC 0.
Definition C1 : C := RtoC 1.
Definition Ci : C := mkC 0 1.

Definition Cadd (a b : C) : C := mkC (Re a + Re b) (Im a + Im b).
Definition Copp (a : C) : C := mkC (- Re a) (- Im a).
Definition Cmul (a b : C) : C :=
  mkC (Re a * Re b - Im a * Im b) (Re a * Im b + Im a * Re b).

Infix "+" := Cadd : C_scope.
Infix "*" := Cmul : C_scope.
Notation "- a" := (Copp a) : C_scope.

(** [z != 0] on a complex entry. *)
Definition Reqb (a b : R) : bool := if Req_dec_T a b then true else false.
Definition Cnonzero (z : C) : bool := negb (Reqb (Re z) 0 && Reqb (Im z) 0).

Fixpoint Csum (l : list C) : C :=
  match l with
  | [] => C0
  | z :: l' => (z + Csum l')%C
  end.

Fixpoint Rsum (l : list R) : R :=
  match l with
  | [] => 0
  | x :: l' => x + Rsum l'
  end.

(* ================================================================== *)
(** ** Exceptions *)

Inductive exn : Type := ValueError | IndexError | ZeroDivisionError.

Inductive result (A : Type) : Type :=
| Ok (a : A)
| Raise (e : exn).
Arguments Ok {A} a.
Arguments Raise {A} e.

Definition bind {A B : Type} (r : result A) (k : A -> result B) : result B :=
  match r with
  | Ok a => k a
  | Raise e => Raise e
  end.

Notation "x <- r ;; k" := (bind r (fun x => k))
  (at level 61, r at next level, right associativity).

(** The spec's name for a raised shape or size error. *)
Definition InvalidInput : exn := ValueError.

(** A [float64] value: [Some x] is the finite number [x], [None] is a value
    that is not a finite number ([nan], [inf]). *)
Definition float : Type := option R.

(* ================================================================== *)
(** ** Arrays *)

(** 2-D array of shape [(length rows2, ncols2)]. *)
Record array2 : Type := mkArray2 { ncols2 : nat; rows2 : list (list C) }.

(** 3-D array of shape [(dim0, dim1, dim2)], entry [a[i, j, k] = get3 a i j k]. *)
Record array3 : Type :=
  mkArray3 { dim0 : nat; dim1 : nat; dim2 : nat; get3 : nat -> nat -> nat -> C }.

Module np.

Definition real (z : C) : R := Re z.
Definition conj (z : C) : C := mkC (Re z) (- Im z).
Definition abs (z : C) : R := sqrt (Re z * Re z + Im z * Im z).
(** [np.exp(1j * t)] for a real [t]. *)
Definition exp_1j (t : R) : C := mkC (cos t) (sin t).
Definition angle (z : C) : R :=
  if Rlt_dec 0 (Re z) then atan (Im z / Re z)
  else if Rlt_dec (Re z) 0 then
    if Rle_dec 0 (Im z) then atan (Im z / Re z) + PI
    else atan (Im z / Re z) - PI
  else if Rlt_dec 0 (Im z) then PI / 2
  else if Rlt_dec (Im z) 0 then - (PI / 2)
  else 0.

Definition ones (n : nat) : list C := repeat C1 n.

(** [a.T] of a 1-D array is [a]; of a 3-D array it reverses the axes:
    [a.T[k, j, i] = a[i, j, k]]. *)
Definition T1 (a : list C) : list C := a.
Definition T3 (a : array3) : array3 :=
  mkArray3 (dim2 a) (dim1 a) (dim0 a) (fun k j i => get3 a i j k).

(** [np.matmul] of a 1-D array [a] of shape [(n,)] and a 3-D array [b] of
    shape [(K, n, m)]: [a] is promoted to [(1, n)], multiplied with each
    of the [K] matrices of [b], and the prepended axis is removed; the
    result has shape [(K, m)].  Raises [ValueError] unless the length of
    [a] is the size of the next to last axis of [b]. *)
Definition matmul_1d_3d (a : list C) (b : array3) : result array2 :=
  if Nat.eqb (length a) (dim1 b) then
    Ok (mkArray2 (dim2 b)
          (map (fun k =>
             map (fun j =>
               Csum (map (fun i => (nth i a C0 * get3 b k i j)%C)
                         (seq 0 (dim1 b))))
                 (seq 0 (dim2 b)))
             (seq 0 (dim0 b))))
  else Raise ValueError.

(** The sum of the products of the entries of two 1-D arrays. *)
Definition dot (r w : list C) : C :=
  Csum (map (fun p => (fst p * snd p)%C) (combine r w)).

(** [np.matmul] of a 2-D array of shape [(K, n)] and a 1-D array of shape
    [(n,)]: shape [(K,)].  Raises [ValueError] when the column count is not
    the length of the vector, also when the matrix has no row. *)
Definition matmul_2d_1d (a : array2) (w : list C) : result (list C) :=
  if Nat.eqb (ncols2 a) (length w) then
    Ok (map (fun r => dot r w) (rows2 a))
  else Raise ValueError.

(** [b @ w] for a 3-D array of shape [(x, y, n)] and a 1-D array of shape
    [(n,)]: the 2-D array of shape [(x, y)] with entries
    [sum_k b[i, j, k] * w[k]]. *)
Definition matmul_3d_1d (b : array3) (w : list C) : result array2 :=
  if Nat.eqb (dim2 b) (length w) then
    Ok (mkArray2 (dim1 b)
          (map (fun i =>
             map (fun j =>
               Csum (map (fun k => (get3 b i j k * nth k w C0)%C)
                         (seq 0 (dim2 b))))
                 (seq 0 (dim1 b)))
             (seq 0 (dim0 b))))
  else Raise ValueError.

(** [np.max] of a 1-D real array; a zero-size array raises [ValueError]. *)
Definition max (l : list R) : result R :=
  match l with
  | [] => Raise ValueError
  | x :: l' => Ok (fold_left Rmax l' x)
  end.

Definition sum (l : list R) : R := Rsum l.

End np.

(* ================================================================== *)
(** ** [max_SAR] (complex_shimming.ipynb, cell "Virtual observation points")

<<
def max_SAR(weights, vop):
    # computes max local SAR
    return np.max(np.real(np.matmul(np.matmul(np.conj(weights).T, vop.T), weights)))
>>

    [vop] is the array loaded from [vop.npy], of shape [(N, N, K)]: its
    [k]-th matrix is [vop[:, :, k]], as the element axis of [b1_maps] is the
    last one. *)

Definition max_SAR (weights : list C) (vop : array3) : result R :=
  m <- np.matmul_1d_3d (np.T1 (map np.conj weights)) (np.T3 vop) ;;
  s <- np.matmul_2d_1d m weights ;;
  np.max (map np.real s).

(** The [k]-th matrix of the VOP set, [Q_k = vop[:, :, k]]. *)
Definition vop_matrix (vop : array3) (k : nat) : nat -> nat -> C :=
  fun i j => get3 vop i j k.

Definition transpose (Q : nat -> nat -> C) : nat -> nat -> C :=
  fun i j => Q j i.

(** The quadratic form [w* Q w = sum_i sum_j conj(w_i) Q[i, j] w_j], the
    indices running over the length of [w]. *)
Definition quad_form (w : list C) (Q : nat -> nat -> C) : C :=
  Csum (map (fun i =>
          Csum (map (fun j => (np.conj (nth i w C0) * Q i j * nth j w C0)%C)
                    (seq 0 (length w))))
            (seq 0 (length w))).

(** What the spec asks of [max_SAR]: the largest real part of [w* Q w]
    over the matrices of the set. *)
Definition max_SAR_spec (weights : list C) (vop : array3) : result R :=
  np.max (map (fun k => Re (quad_form weights (vop_matrix vop k)))
              (seq 0 (dim2 vop))).

(* ================================================================== *)
(** ** Field maps, combined field and masks *)

(** A field map [b1_maps] is a 3-D array of shape [(x, y, n_Tx)].  A mask is a
    2-D boolean array of the spatial shape [(x, y)] of the field map it goes
    with (the notebooks derive every mask from [b1_maps] or allocate it with
    [b1_maps[:, :, 0].shape]); entries outside that extent are never read. *)
Definition mask2 : Type := nat -> nat -> bool.

Definition n_Tx (b1_maps : array3) : nat := dim2 b1_maps.

(** [b1_maps @ weights], the combined field. *)
Definition combined_field (b1_maps : array3) (weights : list C) : result array2 :=
  np.matmul_3d_1d b1_maps weights.

(** [np.abs(a)] on a 2-D array. *)
Definition abs2 (a : array2) : list (list R) := map (map np.abs) (rows2 a).

Definition fmap {A B : Type} (f : A -> B) (r : result A) : result B :=
  x <- r ;; Ok (f x).

(** phase_only.ipynb: [mask = b1_maps[:, :, 0] != 0].  Indexing the last
    axis at 0 raises [IndexError] when that axis is empty. *)
Definition mask_first_element (b1_maps : array3) : result mask2 :=
  if Nat.eqb (dim2 b1_maps) 0 then Raise IndexError
  else Ok (fun i j => Cnonzero (get3 b1_maps i j 0)).

(** complex_shimming.ipynb: [mask = b1_maps.sum(-1) != 0]. *)
Definition mask_sum (b1_maps : array3) : mask2 :=
  fun i j => Cnonzero (Csum (map (get3 b1_maps i j) (seq 0 (dim2 b1_maps)))).

(** [a[mask]]: the entries of a 2-D array at the voxels of the mask, in
    row-major order. *)
Definition select2 (a : array2) (mask : mask2) : list C :=
  flat_map (fun i =>
    flat_map (fun j => if mask i j then [nth j (nth i (rows2 a) []) C0] else [])
             (seq 0 (ncols2 a)))
    (seq 0 (length (rows2 a))).

(** A mask that selects no voxel of the field map. *)
Definition selects_no_voxel (b1_maps : array3) (mask : mask2) : Prop :=
  forall i j, (i < dim0 b1_maps)%nat -> (j < dim1 b1_maps)%nat -> mask i j = false.

(** CP-mode weights: [np.exp(1j * np.linspace(0, 2*(np.pi - np.pi / n_Tx), n_Tx))],
    for [n_Tx >= 1] (see [weights_CP_cell] for [n_Tx = 0]). *)
Definition linspace (start stop : R) (num : nat) : list R :=
  map (fun k => start + INR k * ((stop - start) / INR (num - 1))) (seq 0 num).

Definition weights_CP (n : nat) : list C :=
  map np.exp_1j (linspace 0 (2 * (PI - PI / INR n)) n).

(** A weight vector whose entries all have magnitude 1. *)
Definition unit_magnitude (w : list C) : Prop :=
  Forall (fun z => np.abs z = 1) w.

(** Every entry of [w] multiplied by [e^(i theta)]. *)
Definition rotate (theta : R) (w : list C) : list C :=
  map (fun z => (np.exp_1j theta * z)%C) w.

(** Every entry of [w] multiplied by the complex scalar [c]. *)
Definition scale (c : C) (w : list C) : list C :=
  map (fun z => (c * z)%C) w.

(* ================================================================== *)
(** ** The ROI matrix [b1_roi]

<<
b1_roi = np.reshape(b1_maps * mask[:, :, np.newaxis], [x * y, n_Tx])
b1_roi = b1_roi[b1_roi[:, 0] != 0, :]
>>
    (the first cell writes the column count as the literal 8). *)

(** [b1_maps * mask[:, :, np.newaxis]]: a boolean multiplies as 1 or 0. *)
Definition mask_mul (b1_maps : array3) (mask : mask2) : array3 :=
  mkArray3 (dim0 b1_maps) (dim1 b1_maps) (dim2 b1_maps)
    (fun i j k => (get3 b1_maps i j k * (if mask i j then C1 else C0))%C).

(** [np.reshape(a, [r, c])] of a 3-D array, in row-major order; raises
    [ValueError] when the sizes differ. *)
Definition reshape (a : array3) (r c : nat) : result array2 :=
  if Nat.eqb (dim0 a * dim1 a * dim2 a) (r * c) then
    Ok (mkArray2 c
          (map (fun v =>
             map (fun k =>
               let f := (v * c + k)%nat in
               get3 a (f / (dim1 a * dim2 a))%nat
                      ((f / dim2 a) mod dim1 a)%nat
                      (f mod dim2 a)%nat)
                 (seq 0 c))
             (seq 0 r)))
  else Raise ValueError.

(** [a[a[:, 0] != 0, :]]: the rows whose first entry is not zero.  Column 0
    of an array without columns raises [IndexError]. *)
Definition rows_col0_nonzero (a : array2) : result array2 :=
  if Nat.eqb (ncols2 a) 0 then Raise IndexError
  else Ok (mkArray2 (ncols2 a)
             (filter (fun r => Cnonzero (nth 0 r C0)) (rows2 a))).

Definition b1_roi (b1_maps : array3) (mask : mask2) (ncols : nat) : result array2 :=
  a <- reshape (mask_mul b1_maps mask) (dim0 b1_maps * dim1 b1_maps) ncols ;;
  rows_col0_nonzero a.

(** The voxels [b1_roi] keeps: those of the mask at which the field of the
    first element is not zero. *)
Definition roi_voxels (b1_maps : array3) (mask : mask2) : mask2 :=
  fun i j => mask i j && Cnonzero (get3 b1_maps i j 0).

(* ================================================================== *)
(** ** [scipy.stats.variation] and the cost functions *)

Definition mean (l : list R) : R := Rsum l / INR (length l).

(** [np.std], with the default [ddof = 0]. *)
Definition std (l : list R) : R :=
  sqrt (mean (map (fun x => (x - mean l) * (x - mean l)) l)).

(** [variation(a) = a.std() / a.mean()].  On an empty array, and when the
    mean is zero, the float quotient is [nan] or [inf]. *)
Definition variation (l : list R) : float :=
  match l with
  | [] => None
  | _ => if Req_dec_T (mean l) 0 then None else Some (std l / mean l)
  end.
Arguments variation : simpl never.

Section Optimization.

(** [functions.vector_to_complex] and [functions.complex_to_vector], the
    decoding and encoding between the real parameter vector of the solver
    and the complex weights, and [scipy.optimize.minimize(fun, x0,
    constraints=cons).x]: the objective and the constraint function may
    raise, and so may the call. *)
Variable vector_to_complex : list R -> list C.
Variable complex_to_vector : list C -> list R.
Variable minimize :
  (list R -> result float) -> list R -> option (list R -> result R) ->
  result (list R).

(**
<<
def cost_function(weights):
    return variation(np.abs(b1_roi @ vector_to_complex(weights)))
>> *)
Definition cost_function (b1_roi : array2) (weights : list R) : result float :=
  s <- np.matmul_2d_1d b1_roi (vector_to_complex weights) ;;
  Ok (variation (map np.abs s)).

(**
<<
def cost_function_MLS(weights):
    b1_abs = np.abs(b1_roi @ vector_to_complex(weights))
    return np.sum((b1_abs - target)**2)
>> *)
Definition cost_function_MLS (b1_roi : array2) (target : R) (weights : list R)
  : result float :=
  s <- np.matmul_2d_1d b1_roi (vector_to_complex weights) ;;
  let b1_abs := map np.abs s in
  Ok (Some (np.sum (map (fun a => (a - target) * (a - target)) b1_abs))).

(** The coefficient of variation the notebooks report for a weight vector:
    [variation(np.abs((b1_maps @ weights)[mask]))]. *)
Definition CoV (b1_maps : array3) (mask : mask2) (weights : list C) : result float :=
  b1 <- combined_field b1_maps weights ;;
  Ok (variation (map np.abs (select2 b1 mask))).

(** The sum of squared deviations from the target over the mask:
    [np.sum((np.abs((b1_maps @ weights)[mask]) - target)**2)]. *)
Definition MLS (b1_maps : array3) (mask : mask2) (target : R) (weights : list C)
  : result float :=
  b1 <- combined_field b1_maps weights ;;
  Ok (Some (np.sum (map (fun a => (a - target) * (a - target))
                        (map np.abs (select2 b1 mask))))).

(**
<<
weights_PM = vector_to_complex(scipy.optimize.minimize(cost_function, complex_to_vector(initial_weights)).x)
>>
    [ncols] is the column count of the reshape that builds [b1_roi], the
    literal 8 in this cell. *)
Definition weights_PM (b1_maps : array3) (mask : mask2) (ncols : nat)
    (initial_weights : list C) : result (list C) :=
  roi <- b1_roi b1_maps mask ncols ;;
  x <- minimize (cost_function roi) (complex_to_vector initial_weights) None ;;
  Ok (vector_to_complex x).

(**
<<
SAR_limit = max_SAR(weights_CP, vop)
initial_weights = complex_to_vector(weights_PO)
cons = ({'type': 'ineq', 'fun': lambda x:  -max_SAR(vector_to_complex(x), vop) + SAR_limit})
weights_SAR = vector_to_complex(scipy.optimize.minimize(cost_function, initial_weights, constraints=cons).x)
>> *)
Definition cons_fun (vop : array3) (SAR_limit : R) (x : list R) : result R :=
  s <- max_SAR (vector_to_complex x) vop ;;
  Ok (- s + SAR_limit).

Definition weights_SAR (b1_maps : array3) (mask : mask2) (vop : array3)
    (weights_PO : list C) : result (list C) :=
  SAR_limit <- max_SAR (weights_CP (n_Tx b1_maps)) vop ;;
  let initial_weights := complex_to_vector weights_PO in
  roi <- b1_roi b1_maps mask (n_Tx b1_maps) ;;
  x <- minimize (cost_function roi) initial_weights (Some (cons_fun vop SAR_limit)) ;;
  Ok (vector_to_complex x).

(** The solver raises nothing of its own: when neither the objective nor
    the constraint function raises on the parameter vectors of the length
    of the starting point, the call returns a parameter vector. *)
Definition raises_only_from_callbacks : Prop :=
  forall f x0 cons,
    (forall x, length x = length x0 -> exists v, f x = Ok v) ->
    (forall g, cons = Some g ->
       forall x, length x = length x0 -> exists v, g x = Ok v) ->
    exists x, minimize f x0 cons = Ok x.

(** A parameter vector at which the objective is finite and no larger than
    at any other one. *)
Definition is_minimizer (f : list R -> result float) (x : list R) : Prop :=
  exists v, f x = Ok (Some v) /\ forall y u, f y = Ok (Some u) -> v <= u.

End Optimization.

(* ================================================================== *)
(** ** The real parameterization of the weights *)

Module Encoding.

(** Modelled from the spec: [functions.py], which defines
    [complex_to_vector] and [vector_to_complex], is not among the sources.
    The spec has each complex weight encoded as two reals, magnitude and
    phase, [2N] parameters in total; the notebook says the same (the
    phases and magnitudes are reshaped into a vector of length [2 * N_Tx]).
    The magnitudes come first, then the phases. *)
Definition complex_to_vector (weights : list C) : list R :=
  map np.abs weights ++ map np.angle weights.

Definition polar (m p : R) : C := (RtoC m * np.exp_1j p)%C.

Fixpoint map2 {A B D : Type} (f : A -> B -> D) (l : list A) (l' : list B) : list D :=
  match l, l' with
  | a :: t, b :: t' => f a b :: map2 f t t'
  | _, _ => []
  end.

(** Modelled from the spec: the decoding of [functions.py], which is not
    among the sources; the first half of the parameter vector holds the
    magnitudes, the second half the phases, and weight [k] is
    [m_k * exp(1j * p_k)]. *)
Definition vector_to_complex (weights : list R) : list C :=
  let n := (length weights / 2)%nat in
  map2 polar (firstn n weights) (skipn n weights).

(** Modelled from the spec: the other encoding the spec allows, real and
    imaginary parts. *)
Definition complex_to_vector_ri (weights : list C) : list R :=
  map Re weights ++ map Im weights.

(** Modelled from the spec: the decoding that goes with it, weight [k] is
    [a_k + 1j * b_k]. *)
Definition vector_to_complex_ri (weights : list R) : list C :=
  let n := (length weights / 2)%nat in
  map2 mkC (firstn n weights) (skipn n weights).

End Encoding.

(** A solver that evaluates the objective at the starting point and returns
    the starting point: the least a call of [minimize] does. *)
Definition minimize_x0 (f : list R -> result float) (x0 : list R)
    (cons : option (list R -> result R)) : result (list R) :=
  _ <- f x0 ;;
  match cons with
  | Some g => _ <- g x0 ;; Ok x0
  | None => Ok x0
  end.

(** The failing input of [max_SAR]: two channels, weights [(1, i)], and one
    Hermitian positive semidefinite matrix [Q = [[1, i], [-i, 1]]]. *)
Definition w_1i : list C := [C1; Ci].

Definition vop_1 : array3 :=
  mkArray3 2 2 1
    (fun i j _ =>
       match i, j with
       | 0%nat, 1%nat => Ci
       | 1%nat, 0%nat => Copp Ci
       | _, _ => C1
       end).

(** A field map of one row and two voxels for two elements: the first
    element is silent at the first voxel, the second at the second. *)
Definition b1_small : array3 :=
  mkArray3 1 2 2
    (fun _ j k =>
       match j, k with
       | 0%nat, 0%nat => C0
       | 0%nat, _ => RtoC 3
       | _, 0%nat => C1
       | _, _ => C0
       end).

(** A field map of one voxel at which the fields of the two elements cancel. *)
Definition b1_cancel : array3 :=
  mkArray3 1 1 2 (fun _ _ k => match k with 0%nat => C1 | _ => Copp C1 end).

(** A field map of one voxel and one element. *)
Definition b1_single : array3 := mkArray3 1 1 1 (fun _ _ _ => C1).

Definition mask_all : mask2 := fun _ _ => true.
Definition mask_none : mask2 := fun _ _ => false.

(* ================================================================== *)
(** ** The CP-mode notebook: CoV over the nonzero field, normalized weights *)

(** [a[a != 0]]: the entries of a 2-D array that are not zero, in row-major
    order. *)
Definition nonzero_entries (a : array2) : list C :=
  select2 a (fun i j => Cnonzero (nth j (nth i (rows2 a) []) C0)).

(** [variation(np.abs(b1[b1 != 0]))] for [b1 = b1_maps @ weights], the CoV
    the CP-mode notebook prints. *)
Definition CoV_nonzero (b1_maps : array3) (weights : list C) : result float :=
  b1 <- combined_field b1_maps weights ;;
  Ok (variation (map np.abs (nonzero_entries b1))).

(** A complex entry divided by a real one. *)
Definition Cdiv_real (z : C) (r : R) : C := mkC (Re z / r) (Im z / r).

(** [weights_sTx = np.ones(n_Tx)/np.sqrt(n_Tx)]. *)
Definition weights_sTx_normalized (n : nat) : list C :=
  map (fun z => Cdiv_real z (sqrt (INR n))) (np.ones n).

(** [phases = np.linspace(0, 2*(np.pi-np.pi/n_Tx), n_Tx)] and
    [weights_CP = np.ones(n_Tx) / np.sqrt(n_Tx) * np.exp(1j * phases)], an
    entry by entry product. *)
Definition phases (n : nat) : list R := linspace 0 (2 * (PI - PI / INR n)) n.

Definition weights_CP_normalized (n : nat) : list C :=
  Encoding.map2 Cmul (weights_sTx_normalized n) (map np.exp_1j (phases n)).

(** The entry [(i, j)] of a 2-D array. *)
Definition get2 (a : array2) (i j : nat) : C := nth j (nth i (rows2 a) []) C0.

(* ================================================================== *)
(** ** The reduced ROI (complex_shimming.ipynb, cell "ROI size")

<<
mask_reduced = np.zeros(b1_maps[:,:,0].shape)
mask_reduced[x//2-10:x//2+10, y//2-10:y//2+10] = 1
>> *)

(** A bound of a Python slice on an axis of length [n]: a negative bound
    counts from the end, and the result is clipped to [0, n]. *)
Definition slice_bound (i : Z) (n : nat) : nat :=
  if (i <? 0)%Z then Z.to_nat (Z.max 0 (i + Z.of_nat n))
  else Nat.min (Z.to_nat i) n.

(** [i] is among the indices of [start:stop] on an axis of length [n]. *)
Definition in_slice (start stop : Z) (n i : nat) : bool :=
  Nat.leb (slice_bound start n) i && Nat.ltb i (slice_bound stop n).

(** The entry of [mask_reduced] is 1 where this is [true], 0 elsewhere (on
    a map with at least one element, see [mask_reduced_cell]). *)
Definition mask_reduced (b1_maps : array3) : mask2 :=
  let x := Z.of_nat (dim0 b1_maps) in
  let y := Z.of_nat (dim1 b1_maps) in
  fun i j =>
    in_slice (x / 2 - 10)%Z (x / 2 + 10)%Z (dim0 b1_maps) i
    && in_slice (y / 2 - 10)%Z (y / 2 + 10)%Z (dim1 b1_maps) j.

(** A boolean or 0/1 entry as a number. *)
Definition b2r (b : bool) : R := if b then 1 else 0.

(** [mask-mask_reduced!=0], the voxels the notebook reports as outside the
    ROI. *)
Definition outside_ROI (mask reduced : mask2) : mask2 :=
  fun i j => negb (Reqb (b2r (mask i j) - b2r (reduced i j)) 0).

(* ================================================================== *)
(** ** VOP sets: order and sign *)

(** The VOP array with its matrices taken in the order [p]:
    [vop[:, :, p]]. *)
Definition reorder_vop (vop : array3) (p : list nat) : array3 :=
  mkArray3 (dim0 vop) (dim1 vop) (length p)
    (fun i j k => get3 vop i j (nth k p 0%nat)).

(** Every matrix of the set has a quadratic form whose real part is never
    negative on vectors of the size of the matrices (as a Hermitian positive
    semidefinite matrix has). *)
Definition vop_nonneg (vop : array3) : Prop :=
  forall k w, (k < dim2 vop)%nat -> length w = dim0 vop ->
    0 <= Re (quad_form w (vop_matrix vop k)).

(** A 2-D array with every entry multiplied by the complex scalar [c]. *)
Definition scale2 (c : C) (a : array2) : array2 :=
  mkArray2 (ncols2 a) (map (map (Cmul c)) (rows2 a)).

(** The indices [x//2-10:x//2+10] selects on an axis of length [n]: the 20
    indices around the middle when the axis has at least 20 entries; on a
    shorter axis the start is negative and counts from the end, which leaves
    the indices from [n + n//2 - 10] (from 0 when that is negative) to the
    end. *)
Definition reduced_axis (n i : nat) : Prop :=
  ((20 <= n)%nat /\ (n / 2 - 10 <= i)%nat /\ (i < n / 2 + 10)%nat)
  \/ ((n < 20)%nat /\ (n + n / 2 <= i + 10)%nat /\ (i < n)%nat).

(* ================================================================== *)
(** ** Lines that need at least one element *)

(** The CP-weights line as a cell runs it: with [n_Tx = 0] the quotient
    [np.pi / n_Tx] raises [ZeroDivisionError]; [weights_CP] gives the
    weights for [n_Tx >= 1].  (In complex_shimming.ipynb the line comes
    after [b1_maps @ np.ones(8)], which has already raised on a map
    without elements.) *)
Definition weights_CP_cell (n : nat) : result (list C) :=
  if Nat.eqb n 0 then Raise ZeroDivisionError else Ok (weights_CP n).

(** The reduced-ROI lines as the cell runs them: [b1_maps[:,:,0]] raises
    [IndexError] on a map without elements; [mask_reduced] gives the
    entries otherwise. *)
Definition mask_reduced_cell (b1_maps : array3) : result mask2 :=
  if Nat.eqb (dim2 b1_maps) 0 then Raise IndexError
  else Ok (mask_reduced b1_maps).

(* ================================================================== *)
(** ** More inputs for the instances *)

(** A field map of one row and three voxels for two elements, with the
    fields (0, 3), (1, 0) and (1, -1): the first element is silent at the
    first voxel, and the two elements cancel at the third. *)
Definition b1_three : array3 :=
  mkArray3 1 3 2
    (fun _ j k =>
       match j, k with
       | 0%nat, 0%nat => C0
       | 0%nat, _ => RtoC 3
       | 1%nat, 0%nat => C1
       | 1%nat, _ => C0
       | _, 0%nat => C1
       | _, _ => Copp C1
       end).

(** A VOP set of three real symmetric matrices, [[1, 0], [0, 1]],
    [[2, 1], [1, 3]] and [[0, 0], [0, 1]]. *)
Definition vop_sym : array3 :=
  mkArray3 2 2 3
    (fun i j k =>
       match k with
       | 0%nat => if Nat.eqb i j then C1 else C0
       | 1%nat => match i, j with
                  | 0%nat, 0%nat => RtoC 2
                  | 1%nat, 1%nat => RtoC 3
                  | _, _ => C1
                  end
       | _ => match i, j with
              | 1%nat, 1%nat => C1
              | _, _ => C0
              end
       end).

(** A ROI of two voxels, each seeing one of two elements. *)
Definition roi_two : array2 := mkArray2 2 [[C1; C0]; [C0; C1]].

(* ================================================================== *)
(** * Properties *)

(** ** Complex arithmetic *)

Lemma C_eq (a b : C) : Re a = Re b -> Im a = Im b -> a = b.
Proof. destruct a, b; simpl; intros -> ->; reflexivity. Qed.

Ltac Cring :=
  intros;
  repeat match goal with z : C |- _ => destruct z end;
  apply C_eq; simpl; ring.

Lemma Cadd_comm (a b : C) : (a + b)%C = (b + a)%C.
Proof. Cring. Qed.

Lemma Cadd_assoc (a b c : C) : (a + (b + c))%C = (a + b + c)%C.
Proof. Cring. Qed.

Lemma Cadd_0_l (a : C) : (C0 + a)%C = a.
Proof. Cring. Qed.

Lemma Cadd_0_r (a : C) : (a + C0)%C = a.
Proof. Cring. Qed.

Lemma Cmul_comm (a b : C) : (a * b)%C = (b * a)%C.
Proof. Cring. Qed.

Lemma Cmul_assoc (a b c : C) : (a * (b * c))%C = (a * b * c)%C.
Proof. Cring. Qed.

Lemma Cmul_1_r (a : C) : (a * C1)%C = a.
Proof. Cring. Qed.

Lemma Cmul_0_r (a : C) : (a * C0)%C = C0.
Proof. Cring. Qed.

Lemma Cmul_0_l (a : C) : (C0 * a)%C = C0.
Proof. Cring. Qed.

Lemma Cmul_add_distr_l (a b c : C) : (a * (b + c))%C = (a * b + a * c)%C.
Proof. Cring. Qed.

Lemma Cmul_add_distr_r (a b c : C) : ((a + b) * c)%C = (a * c + b * c)%C.
Proof. Cring. Qed.

Lemma abs_nonneg (z : C) : 0 <= np.abs z.
Proof. apply sqrt_pos. Qed.

Lemma abs_mul (a b : C) : np.abs (a * b) = np.abs a * np.abs b.
Proof.
  unfold np.abs. rewrite <- sqrt_mult by nra.
  f_equal. destruct a, b; simpl; ring.
Qed.

Lemma abs_exp_1j (t : R) : np.abs (np.exp_1j t) = 1.
Proof.
  unfold np.abs, np.exp_1j; simpl.
  replace (cos t * cos t + sin t * sin t) with 1.
  - apply sqrt_1.
  - pose proof (sin2_cos2 t) as H. unfold Rsqr in H. lra.
Qed.

Lemma abs_RtoC (x : R) : 0 <= x -> np.abs (RtoC x) = x.
Proof.
  intros Hx. unfold np.abs, RtoC; simpl.
  replace (x * x + 0 * 0) with (x * x) by ring.
  apply sqrt_square; assumption.
Qed.

Lemma abs_0_iff (z : C) : np.abs z = 0 <-> z = C0.
Proof.
  split.
  - intros H. unfold np.abs in H. apply sqrt_eq_0 in H; [|nra].
    apply C_eq; simpl; nra.
  - intros ->. unfold np.abs, C0, RtoC; simpl.
    replace (0 * 0 + 0 * 0) with 0 by ring. apply sqrt_0.
Qed.

Lemma Reqb_true (a b : R) : Reqb a b = true <-> a = b.
Proof. unfold Reqb; destruct (Req_dec_T a b); split; congruence. Qed.

Lemma Reqb_false (a b : R) : Reqb a b = false <-> a <> b.
Proof. unfold Reqb; destruct (Req_dec_T a b); split; congruence. Qed.

Lemma Cnonzero_true (z : C) : Cnonzero z = true <-> z <> C0.
Proof.
  unfold Cnonzero. rewrite negb_true_iff, andb_false_iff, !Reqb_false.
  split.
  - intros [H | H] E; subst z; simpl in H; lra.
  - intros H. destruct (Req_dec_T (Re z) 0) as [E1 | E1]; [|now left].
    right. intros E2. apply H. apply C_eq; assumption.
Qed.

Lemma Cnonzero_false (z : C) : Cnonzero z = false <-> z = C0.
Proof.
  destruct (Cnonzero z) eqn:E.
  - apply Cnonzero_true in E. split; [discriminate | contradiction].
  - split; [intros _ | reflexivity].
    destruct (Req_dec_T (Re z) 0) as [E1 | E1];
      destruct (Req_dec_T (Im z) 0) as [E2 | E2];
      try (apply C_eq; assumption);
      exfalso; unfold Cnonzero in E;
      rewrite negb_false_iff, andb_true_iff, !Reqb_true in E; tauto.
Qed.

(** ** Sums *)

Lemma Csum_app (l l' : list C) : Csum (l ++ l') = (Csum l + Csum l')%C.
Proof.
  induction l as [|z l IH]; simpl.
  - now rewrite Cadd_0_l.
  - now rewrite IH, Cadd_assoc.
Qed.

Lemma Csum_map_ext {A : Type} (f g : A -> C) (l : list A) :
  (forall a, In a l -> f a = g a) -> Csum (map f l) = Csum (map g l).
Proof.
  intros H. f_equal. apply map_ext_in; assumption.
Qed.

Lemma Csum_map_add {A : Type} (f g : A -> C) (l : list A) :
  Csum (map (fun a => (f a + g a)%C) l) = (Csum (map f l) + Csum (map g l))%C.
Proof.
  induction l as [|a l IH]; simpl.
  - now rewrite Cadd_0_l.
  - rewrite IH. Cring.
Qed.

Lemma Csum_map_mul_l {A : Type} (c : C) (f : A -> C) (l : list A) :
  Csum (map (fun a => (c * f a)%C) l) = (c * Csum (map f l))%C.
Proof.
  induction l as [|a l IH]; simpl.
  - now rewrite Cmul_0_r.
  - now rewrite IH, Cmul_add_distr_l.
Qed.

Lemma Csum_map_mul_r {A : Type} (c : C) (f : A -> C) (l : list A) :
  Csum (map (fun a => (f a * c)%C) l) = (Csum (map f l) * c)%C.
Proof.
  induction l as [|a l IH]; simpl.
  - now rewrite Cmul_0_l.
  - now rewrite IH, Cmul_add_distr_r.
Qed.

Lemma Csum_map_0 {A : Type} (l : list A) : Csum (map (fun _ => C0) l) = C0.
Proof.
  induction l as [|a l IH]; simpl; [reflexivity|].
  now rewrite IH, Cadd_0_l.
Qed.

(** Exchange of two finite sums. *)
Lemma Csum_swap {A B : Type} (f : A -> B -> C) (la : list A) (lb : list B) :
  Csum (map (fun a => Csum (map (fun b => f a b) lb)) la) =
  Csum (map (fun b => Csum (map (fun a => f a b) la)) lb).
Proof.
  induction la as [|a la IH]; simpl.
  - now rewrite Csum_map_0.
  - now rewrite IH, <- Csum_map_add.
Qed.

(** The dot product of a tabulated row with a vector of the same length. *)
Lemma dot_tabulate (f : nat -> C) (w : list C) (s : nat) :
  np.dot (map f (seq s (length w))) w =
  Csum (map (fun j => (f j * nth (j - s) w C0)%C) (seq s (length w))).
Proof.
  unfold np.dot. revert s.
  induction w as [|z w IH]; intros s; simpl; [reflexivity|].
  rewrite Nat.sub_diag. f_equal.
  rewrite IH. apply Csum_map_ext.
  intros j Hj. apply in_seq in Hj.
  replace (j - s)%nat with (S (j - S s)) by lia. reflexivity.
Qed.

Lemma dot_tabulate_0 (f : nat -> C) (w : list C) :
  np.dot (map f (seq 0 (length w))) w =
  Csum (map (fun j => (f j * nth j w C0)%C) (seq 0 (length w))).
Proof.
  rewrite dot_tabulate. apply Csum_map_ext.
  intros j _. now rewrite Nat.sub_0_r.
Qed.

(** ** [max_SAR] *)

Lemma conj_C0 : np.conj C0 = C0.
Proof. apply C_eq; simpl; ring. Qed.

Lemma nth_map_conj (w : list C) (i : nat) :
  nth i (map np.conj w) C0 = np.conj (nth i w C0).
Proof. rewrite <- conj_C0 at 1. apply map_nth. Qed.

(** What the code computes: for each matrix of the set the quadratic form of
    its transpose, [w* Q^T w]; [vop.T] reverses the two matrix axes along
    with the axis of the set. *)
Lemma max_SAR_transposed (weights : list C) (vop : array3) :
  length weights = dim0 vop -> length weights = dim1 vop ->
  max_SAR weights vop =
  np.max (map (fun k => Re (quad_form weights (transpose (vop_matrix vop k))))
              (seq 0 (dim2 vop))).
Proof.
  intros H0 H1. unfold max_SAR, np.matmul_1d_3d, np.T1. simpl.
  rewrite length_map, <- H1, Nat.eqb_refl. simpl.
  unfold np.matmul_2d_1d. simpl.
  rewrite <- H0, Nat.eqb_refl. simpl.
  rewrite !map_map. f_equal. apply map_ext. intros k.
  unfold np.real. f_equal.
  rewrite dot_tabulate_0. unfold quad_form, transpose, vop_matrix.
  rewrite Csum_swap. apply Csum_map_ext. intros j _.
  rewrite <- Csum_map_mul_r. apply Csum_map_ext. intros i _.
  now rewrite nth_map_conj.
Qed.

Lemma max_SAR_length_mismatch (weights : list C) (vop : array3) :
  length weights <> dim0 vop \/ length weights <> dim1 vop ->
  max_SAR weights vop = Raise ValueError.
Proof.
  intros H. unfold max_SAR, np.matmul_1d_3d, np.T1. simpl.
  rewrite length_map.
  destruct (Nat.eqb_spec (length weights) (dim1 vop)) as [E1 | E1];
    [|reflexivity].
  simpl. unfold np.matmul_2d_1d. simpl.
  destruct (Nat.eqb_spec (dim0 vop) (length weights)) as [E0 | E0];
    [|reflexivity].
  exfalso. destruct H; congruence.
Qed.

(** C1, at the failing input.  For the weights [(1, i)] and the single
    Hermitian matrix [[1, i], [-i, 1]] the quadratic form [w* Q w] is 0, so
    the maximum of its real part over the set is 0; [max_SAR] returns 4,
    the value of [w* Q^T w]. *)
Theorem max_SAR_failing_input :
  max_SAR w_1i vop_1 = Ok 4 /\ max_SAR_spec w_1i vop_1 = Ok 0.
Proof.
  split.
  - unfold max_SAR, np.matmul_1d_3d, np.matmul_2d_1d, np.max, np.dot; simpl.
    f_equal. lra.
  - unfold max_SAR_spec, quad_form, np.max; simpl.
    f_equal. lra.
Qed.

(** For real symmetric matrices, and more generally whenever each matrix of
    the set equals its transpose, the code computes what the spec asks. *)
Lemma max_SAR_symmetric (weights : list C) (vop : array3) :
  length weights = dim0 vop -> length weights = dim1 vop ->
  (forall i j k, get3 vop i j k = get3 vop j i k) ->
  max_SAR weights vop = max_SAR_spec weights vop.
Proof.
  intros H0 H1 Hsym. rewrite max_SAR_transposed by assumption.
  unfold max_SAR_spec. f_equal. apply map_ext. intros k.
  f_equal. unfold quad_form, transpose, vop_matrix.
  apply Csum_map_ext. intros i _. apply Csum_map_ext. intros j _.
  now rewrite Hsym.
Qed.

(** The code returns the SAR of the conjugated weights. *)
Lemma max_SAR_conj (weights : list C) (vop : array3) :
  length weights = dim0 vop -> length weights = dim1 vop ->
  max_SAR weights vop = max_SAR_spec (map np.conj weights) vop.
Proof.
  intros H0 H1. rewrite max_SAR_transposed by assumption.
  unfold max_SAR_spec. f_equal. apply map_ext. intros k.
  f_equal. unfold quad_form, transpose, vop_matrix.
  rewrite length_map, Csum_swap.
  apply Csum_map_ext. intros j _. apply Csum_map_ext. intros i _.
  rewrite !nth_map_conj.
  generalize (nth i weights C0), (nth j weights C0), (get3 vop j i k).
  Cring.
Qed.

(** ** The combined field under a global phase *)

Lemma nth_scale (c : C) (w : list C) (k : nat) :
  nth k (scale c w) C0 = (c * nth k w C0)%C.
Proof.
  unfold scale. rewrite <- (Cmul_0_r c) at 1.
  apply (map_nth (fun z => (c * z)%C)).
Qed.

Lemma rotate_scale (theta : R) (w : list C) :
  rotate theta w = scale (np.exp_1j theta) w.
Proof. reflexivity. Qed.

Lemma combined_field_scale (b1_maps : array3) (c : C) (w : list C) :
  fmap abs2 (combined_field b1_maps (scale c w)) =
  fmap (fun a => map (map (fun z => np.abs c * np.abs z)) (rows2 a))
       (combined_field b1_maps w).
Proof.
  unfold combined_field, np.matmul_3d_1d, scale. rewrite length_map.
  destruct (Nat.eqb (dim2 b1_maps) (length w)); [|reflexivity].
  simpl. unfold abs2. simpl. f_equal.
  rewrite !map_map. apply map_ext. intros i.
  rewrite !map_map. apply map_ext. intros j.
  rewrite <- abs_mul. f_equal.
  rewrite <- Csum_map_mul_l. apply Csum_map_ext. intros k _.
  fold (scale c w). rewrite nth_scale. Cring.
Qed.

Lemma weights_CP_unit (n : nat) : unit_magnitude (weights_CP n).
Proof.
  unfold unit_magnitude, weights_CP. apply Forall_map, Forall_forall.
  intros t _. apply abs_exp_1j.
Qed.

(** C7.  For every field map, every weight vector of unit magnitude per
    element and every real angle [theta], multiplying every weight by
    [e^(i theta)] leaves the magnitude of the combined field
    [b1_maps @ weights] unchanged at every voxel (and the product raises for
    the rotated weights exactly when it raises for the given ones). *)
Theorem global_phase_invariance (b1_maps : array3) (w : list C) (theta : R) :
  unit_magnitude w ->
  fmap abs2 (combined_field b1_maps (rotate theta w)) =
  fmap abs2 (combined_field b1_maps w).
Proof.
  intros _. rewrite rotate_scale, combined_field_scale, abs_exp_1j.
  unfold fmap, abs2. destruct (combined_field b1_maps w); simpl; [|reflexivity].
  f_equal. apply map_ext. intros r. apply map_ext. intros z. ring.
Qed.

Lemma global_phase_invariance_witness :
  unit_magnitude (weights_CP 2) /\
  fmap abs2 (combined_field b1_small (rotate (PI / 2) (weights_CP 2))) =
  fmap abs2 (combined_field b1_small (weights_CP 2)).
Proof.
  split.
  - apply weights_CP_unit.
  - apply (global_phase_invariance b1_small (weights_CP 2) (PI / 2)).
    apply weights_CP_unit.
Defined.

(** ** [variation] under a change of scale *)

Lemma Rsum_map_scale (a : R) (l : list R) :
  Rsum (map (Rmult a) l) = a * Rsum l.
Proof.
  induction l as [|x l IH]; simpl; [ring|]. rewrite IH. ring.
Qed.

Lemma Rsum_nonneg (l : list R) : Forall (fun x => 0 <= x) l -> 0 <= Rsum l.
Proof.
  induction 1 as [|x l Hx _ IH]; simpl; lra.
Qed.

Lemma mean_scale (a : R) (l : list R) : mean (map (Rmult a) l) = a * mean l.
Proof.
  unfold mean. rewrite Rsum_map_scale, length_map. unfold Rdiv. ring.
Qed.

Lemma mean_nonneg (l : list R) : Forall (fun x => 0 <= x) l -> 0 <= mean l.
Proof.
  intros H. unfold mean, Rdiv. apply Rmult_le_pos.
  - apply Rsum_nonneg; assumption.
  - destruct l as [|x l]; simpl length.
    + simpl. rewrite Rinv_0. lra.
    + left. apply Rinv_0_lt_compat, lt_0_INR. lia.
Qed.

Lemma std_scale (a : R) (l : list R) :
  0 <= a -> std (map (Rmult a) l) = a * std l.
Proof.
  intros Ha. unfold std. rewrite mean_scale, map_map.
  rewrite (map_ext _ (fun x => (a * a) * ((x - mean l) * (x - mean l))))
    by (intros; ring).
  rewrite <- (map_map (fun x => (x - mean l) * (x - mean l)) (Rmult (a * a))).
  rewrite mean_scale, sqrt_mult_alt by nra.
  now rewrite sqrt_square.
Qed.

Lemma std_nonneg (l : list R) : 0 <= std l.
Proof. apply sqrt_pos. Qed.

Lemma variation_scale (a : R) (l : list R) :
  0 < a -> variation (map (Rmult a) l) = variation l.
Proof.
  intros Ha. destruct l as [|x l]; [reflexivity|].
  unfold variation. cbn [map].
  change (a * x :: map (Rmult a) l) with (map (Rmult a) (x :: l)).
  rewrite mean_scale, std_scale by lra.
  destruct (Req_dec_T (a * mean (x :: l)) 0) as [E | E];
    destruct (Req_dec_T (mean (x :: l)) 0) as [E' | E'].
  - reflexivity.
  - exfalso. apply E'. nra.
  - exfalso. apply E. rewrite E'. ring.
  - f_equal. field. lra.
Qed.

(** The coefficient of variation of magnitudes is never negative. *)
Lemma variation_nonneg (l : list R) (v : R) :
  Forall (fun x => 0 <= x) l -> variation l = Some v -> 0 <= v.
Proof.
  intros Hl. unfold variation. destruct l as [|x l]; [discriminate|].
  destruct (Req_dec_T (mean (x :: l)) 0) as [E | E]; [discriminate|].
  intros [= <-]. pose proof (mean_nonneg _ Hl). pose proof (std_nonneg (x :: l)).
  apply Rmult_le_pos; [assumption|].
  left. apply Rinv_0_lt_compat. lra.
Qed.

(** ** The cost function under a complex scaling of the weights *)

Lemma dot_scale (c : C) (r w : list C) :
  np.dot r (scale c w) = (c * np.dot r w)%C.
Proof.
  unfold np.dot, scale. revert w.
  induction r as [|a r IH]; intros [|z w]; simpl;
    try (now rewrite Cmul_0_r).
  rewrite IH. Cring.
Qed.

Lemma abs_pos (c : C) : c <> C0 -> 0 < np.abs c.
Proof.
  intros Hc. destruct (abs_nonneg c) as [H | H]; [assumption|].
  exfalso. apply Hc, abs_0_iff. now symmetry.
Qed.

Lemma matmul_2d_1d_scale (roi : array2) (c : C) (w : list C) :
  fmap (map np.abs) (np.matmul_2d_1d roi (scale c w)) =
  fmap (fun s => map (Rmult (np.abs c)) (map np.abs s)) (np.matmul_2d_1d roi w).
Proof.
  unfold np.matmul_2d_1d, scale. rewrite length_map.
  destruct (Nat.eqb (ncols2 roi) (length w)); [|reflexivity].
  simpl. f_equal. rewrite !map_map. apply map_ext. intros r.
  fold (scale c w). now rewrite dot_scale, abs_mul.
Qed.

Section CostFunction.

Variable vector_to_complex : list R -> list C.

Let cost := cost_function vector_to_complex.

Lemma cost_function_scale (roi : array2) (c : C) (x x' : list R) :
  c <> C0 ->
  vector_to_complex x' = scale c (vector_to_complex x) ->
  cost roi x' = cost roi x.
Proof.
  intros Hc Hx. unfold cost, cost_function. rewrite Hx.
  pose proof (matmul_2d_1d_scale roi c (vector_to_complex x)) as H.
  destruct (np.matmul_2d_1d roi (scale c (vector_to_complex x))) as [s' | e'];
    destruct (np.matmul_2d_1d roi (vector_to_complex x)) as [s | e];
    simpl in H; try discriminate; simpl.
  - injection H as ->. now rewrite variation_scale by (apply abs_pos; assumption).
  - congruence.
Qed.

(** A weight vector that a scalar other than 1 fixes is zero. *)
Lemma scale_fixed_zero (c : C) (w : list C) :
  c <> C1 -> scale c w = w -> Forall (fun z => z = C0) w.
Proof.
  intros Hc. induction w as [|z w IH]; simpl; intros H; constructor.
  - injection H as Hz _. destruct c as [a b], z as [p q].
    injection Hz as H1 H2.
    assert (Hab : a - 1 <> 0 \/ b <> 0).
    { destruct (Req_dec_T a 1) as [-> | Ha]; [right | left; lra].
      intros ->. now apply Hc. }
    assert (Hn : 0 < (a - 1) * (a - 1) + b * b).
    { pose proof (Rle_0_sqr (a - 1)) as Ha2. pose proof (Rle_0_sqr b) as Hb2.
      destruct Hab as [H | H]; apply Rsqr_pos_lt in H; unfold Rsqr in *; lra. }
    assert (E1 : a * p - b * q - p = 0) by lra.
    assert (E2 : a * q + b * p - q = 0) by lra.
    assert (Hp : ((a - 1) * (a - 1) + b * b) * p = 0).
    { replace (((a - 1) * (a - 1) + b * b) * p)
        with ((a - 1) * (a * p - b * q - p) + b * (a * q + b * p - q)) by ring.
      rewrite E1, E2. ring. }
    assert (Hq : ((a - 1) * (a - 1) + b * b) * q = 0).
    { replace (((a - 1) * (a - 1) + b * b) * q)
        with ((a - 1) * (a * q + b * p - q) - b * (a * p - b * q - p)) by ring.
      rewrite E1, E2. ring. }
    apply Rmult_integral in Hp, Hq.
    apply C_eq; simpl; lra.
  - apply IH. now injection H.
Qed.

Lemma dot_zero (r w : list C) : Forall (fun z => z = C0) w -> np.dot r w = C0.
Proof.
  unfold np.dot. intros H. revert r.
  induction H as [|z w -> _ IH]; intros [|a r]; simpl; try reflexivity.
  rewrite IH. Cring.
Qed.

Lemma Rsum_zero (l : list R) : Forall (fun x => x = 0) l -> Rsum l = 0.
Proof.
  induction 1 as [|x l -> _ IH]; simpl; lra.
Qed.

Lemma cost_zero_weights (roi : array2) (x : list R) (v : R) :
  Forall (fun z => z = C0) (vector_to_complex x) ->
  cost roi x <> Ok (Some v).
Proof.
  intros Hz. unfold cost, cost_function, np.matmul_2d_1d.
  destruct (Nat.eqb (ncols2 roi) (length (vector_to_complex x)));
    simpl; [|discriminate].
  rewrite map_map.
  set (l := map _ (rows2 roi)).
  assert (Hl : Forall (fun a => a = 0) l).
  { apply Forall_map, Forall_forall. intros r _.
    rewrite dot_zero by assumption. now apply abs_0_iff. }
  unfold variation. destruct l as [|a l]; [discriminate|].
  destruct (Req_dec_T (mean (a :: l)) 0) as [E | E]; [discriminate|].
  exfalso. apply E. unfold mean. rewrite Rsum_zero by assumption.
  unfold Rdiv. ring.
Qed.

Variable complex_to_vector : list C -> list R.

Lemma cost_function_nonneg (roi : array2) (y : list R) (u : R) :
  cost roi y = Ok (Some u) -> 0 <= u.
Proof.
  unfold cost, cost_function.
  destruct (np.matmul_2d_1d roi (vector_to_complex y)) as [s | e];
    simpl; [|discriminate].
  intros [= H]. apply (variation_nonneg (map np.abs s)); [|assumption].
  apply Forall_map, Forall_forall. intros z _. apply abs_nonneg.
Qed.

(** C10.  For every ROI matrix, every parameter vector [x] at which the
    CoV cost is a finite number (the ROI is not empty and the mean magnitude
    of the combined field is not zero) and every complex scalar [c] other
    than zero: the cost at every parameter vector [x'] that decodes to [c]
    times the weights of [x] equals the cost at [x], such an [x'] minimizes
    the cost whenever [x] does, and it differs from [x] when [c] is not 1.
    With an encoding that decodes back ([vector_to_complex] after
    [complex_to_vector] is the identity) such an [x'] exists, and a
    minimizer is never the only one: whenever [x] minimizes the cost, a
    parameter vector other than [x] minimizes it too. *)
Theorem cost_function_scale_invariant (roi : array2) (c : C) (x : list R) :
  c <> C0 ->
  (exists v, cost_function vector_to_complex roi x = Ok (Some v)) ->
  (forall x',
     vector_to_complex x' = scale c (vector_to_complex x) ->
     cost_function vector_to_complex roi x'
     = cost_function vector_to_complex roi x
     /\ (is_minimizer (cost_function vector_to_complex roi) x ->
         is_minimizer (cost_function vector_to_complex roi) x')
     /\ (c <> C1 -> x' <> x))
  /\ ((forall w, vector_to_complex (complex_to_vector w) = w) ->
      (exists x',
         vector_to_complex x' = scale c (vector_to_complex x)
         /\ cost_function vector_to_complex roi x'
            = cost_function vector_to_complex roi x)
      /\ (is_minimizer (cost_function vector_to_complex roi) x ->
          exists y, y <> x
                    /\ is_minimizer (cost_function vector_to_complex roi) y)).
Proof.
  intros Hc [v Hv].
  assert (Hinv : forall d x', d <> C0 ->
            vector_to_complex x' = scale d (vector_to_complex x) ->
            cost_function vector_to_complex roi x'
            = cost_function vector_to_complex roi x
            /\ (is_minimizer (cost_function vector_to_complex roi) x ->
                is_minimizer (cost_function vector_to_complex roi) x')
            /\ (d <> C1 -> x' <> x)).
  { intros d x' Hd Hx.
    pose proof (cost_function_scale roi d x x' Hd Hx) as E. unfold cost in E.
    split; [assumption | split].
    - intros [u [Hu Hmin]]. exists u. split; [congruence | assumption].
    - intros Hd1 ->.
      apply (cost_zero_weights roi x v); [|assumption].
      apply (scale_fixed_zero d); [assumption | now symmetry]. }
  split.
  - intros x' Hx. now apply Hinv.
  - intros Hround. split.
    + exists (complex_to_vector (scale c (vector_to_complex x))).
      split; [apply Hround|].
      apply (Hinv c); [assumption | apply Hround].
    + intros Hmin.
      assert (H2 : RtoC 2 <> C0).
      { intros E. apply (f_equal Re) in E. simpl in E. lra. }
      assert (H21 : RtoC 2 <> C1).
      { intros E. apply (f_equal Re) in E. simpl in E. lra. }
      exists (complex_to_vector (scale (RtoC 2) (vector_to_complex x))).
      destruct (Hinv (RtoC 2)
                  (complex_to_vector (scale (RtoC 2) (vector_to_complex x)))
                  H2 (Hround _)) as [_ [Hm Hne]].
      split; [now apply Hne | now apply Hm].
Qed.

End CostFunction.

(** ** The real parameterization and its round trip *)

Module EncodingFacts.
Import Encoding.

Lemma abs_factor (a b : R) :
  a <> 0 ->
  sqrt (a * a + b * b) = Rabs a * sqrt (1 + (b / a)²).
Proof.
  intros Ha. rewrite <- sqrt_Rsqr_abs, <- sqrt_mult_alt by apply Rle_0_sqr.
  f_equal. unfold Rsqr. field. assumption.
Qed.

Lemma sqrt_1_sqr_pos (t : R) : 0 < sqrt (1 + t²).
Proof.
  apply sqrt_lt_R0. pose proof (Rle_0_sqr t). lra.
Qed.

(** Magnitude and phase give the number back: [|z| e^(i angle z) = z]. *)
Lemma polar_abs_angle (z : C) : polar (np.abs z) (np.angle z) = z.
Proof.
  destruct z as [a b]. unfold polar, np.abs, np.angle, np.exp_1j, RtoC, Cmul.
  cbn [Re Im].
  pose proof (sqrt_1_sqr_pos (b / a)) as HS.
  destruct (Rlt_dec 0 a) as [Ha | Ha]; [|destruct (Rlt_dec a 0) as [Ha' | Ha']].
  - rewrite abs_factor, Rabs_pos_eq, cos_atan, sin_atan by lra.
    apply C_eq; cbn [Re Im]; field; lra.
  - rewrite abs_factor, Rabs_left by lra.
    destruct (Rle_dec 0 b) as [Hb | Hb].
    + rewrite neg_cos, neg_sin, cos_atan, sin_atan.
      apply C_eq; cbn [Re Im]; field; lra.
    + rewrite cos_minus, sin_minus, cos_PI, sin_PI, cos_atan, sin_atan.
      apply C_eq; cbn [Re Im]; field; lra.
  - assert (a = 0) by lra. subst a.
    replace (0 * 0 + b * b) with (b * b) by ring.
    destruct (Rlt_dec 0 b) as [Hb | Hb]; [|destruct (Rlt_dec b 0) as [Hb' | Hb']].
    + rewrite sqrt_square, cos_PI2, sin_PI2 by lra.
      apply C_eq; cbn [Re Im]; ring.
    + replace (b * b) with ((- b) * (- b)) by ring.
      rewrite sqrt_square, cos_neg, sin_neg, cos_PI2, sin_PI2 by lra.
      apply C_eq; cbn [Re Im]; ring.
    + assert (b = 0) by lra. subst b.
      replace (0 * 0) with 0 by ring.
      rewrite sqrt_0, cos_0, sin_0. apply C_eq; cbn [Re Im]; ring.
Qed.

Lemma map2_map {A B D E : Type} (f : B -> D -> E) (g : A -> B) (h : A -> D)
    (l : list A) :
  map2 f (map g l) (map h l) = map (fun a => f (g a) (h a)) l.
Proof.
  induction l as [|a l IH]; simpl; [reflexivity|]. now rewrite IH.
Qed.

Lemma length_map2 {A B D : Type} (f : A -> B -> D) (l : list A) (l' : list B) :
  length (map2 f l l') = Nat.min (length l) (length l').
Proof.
  revert l'. induction l as [|a l IH]; intros [|b l']; simpl; auto.
Qed.

(** Splitting a concatenation of two halves of the same length in the middle. *)
Lemma halves {A : Type} (l l' : list A) :
  length l = length l' ->
  firstn (length (l ++ l') / 2) (l ++ l') = l /\
  skipn (length (l ++ l') / 2) (l ++ l') = l'.
Proof.
  intros H. rewrite length_app, <- H.
  replace (length l + length l)%nat with (length l * 2)%nat by lia.
  rewrite Nat.div_mul by discriminate.
  split.
  - rewrite firstn_app, Nat.sub_diag, firstn_all. simpl. apply app_nil_r.
  - rewrite skipn_app, Nat.sub_diag, skipn_all. reflexivity.
Qed.

Lemma roundtrip (weights : list C) :
  vector_to_complex (complex_to_vector weights) = weights.
Proof.
  unfold vector_to_complex, complex_to_vector.
  destruct (halves (map np.abs weights) (map np.angle weights)) as [-> ->].
  { now rewrite !length_map. }
  rewrite map2_map. rewrite <- (map_id weights) at 2.
  apply map_ext. intros z. apply polar_abs_angle.
Qed.

Lemma roundtrip_ri (weights : list C) :
  vector_to_complex_ri (complex_to_vector_ri weights) = weights.
Proof.
  unfold vector_to_complex_ri, complex_to_vector_ri.
  destruct (halves (map Re weights) (map Im weights)) as [-> ->].
  { now rewrite !length_map. }
  rewrite map2_map. rewrite <- (map_id weights) at 2.
  apply map_ext. intros [a b]. reflexivity.
Qed.

(** The decoded vector has half the length of the parameter vector. *)
Lemma length_vector_to_complex (x : list R) :
  length (vector_to_complex x) = (length x / 2)%nat.
Proof.
  unfold vector_to_complex.
  rewrite length_map2, length_firstn, length_skipn.
  pose proof (Nat.Div0.mul_div_le (length x) 2). lia.
Qed.

End EncodingFacts.

(** C8.  For every [N] and every complex weight vector of length [N],
    encoding it with [complex_to_vector] (magnitudes, then phases) and
    decoding the [2N] reals with [vector_to_complex] gives the vector back;
    the same holds of the encoding by real and imaginary parts. *)
Theorem vector_to_complex_complex_to_vector (N : nat) (weights : list C) :
  length weights = N ->
  length (Encoding.complex_to_vector weights) = (2 * N)%nat /\
  Encoding.vector_to_complex (Encoding.complex_to_vector weights) = weights /\
  Encoding.vector_to_complex_ri (Encoding.complex_to_vector_ri weights) = weights.
Proof.
  intros HN. split; [|split].
  - unfold Encoding.complex_to_vector. rewrite length_app, !length_map. lia.
  - apply EncodingFacts.roundtrip.
  - apply EncodingFacts.roundtrip_ri.
Qed.

Lemma vector_to_complex_complex_to_vector_witness :
  length w_1i = 2%nat /\
  length (Encoding.complex_to_vector w_1i) = (2 * 2)%nat /\
  Encoding.vector_to_complex (Encoding.complex_to_vector w_1i) = w_1i /\
  Encoding.vector_to_complex_ri (Encoding.complex_to_vector_ri w_1i) = w_1i.
Proof.
  split; [reflexivity|].
  apply (vector_to_complex_complex_to_vector 2 w_1i). reflexivity.
Defined.

(** ** The rows of [b1_roi] *)

Lemma filter_map_comm {A B : Type} (p : B -> bool) (f : A -> B) (l : list A) :
  filter p (map f l) = map f (filter (fun a => p (f a)) l).
Proof.
  induction l as [|a l IH]; simpl; [reflexivity|].
  destruct (p (f a)); simpl; now rewrite IH.
Qed.

Lemma map_filter_flat_map {A B : Type} (p : A -> bool) (f : A -> B) (l : list A) :
  map f (filter p l) = flat_map (fun a => if p a then [f a] else []) l.
Proof.
  induction l as [|a l IH]; simpl; [reflexivity|].
  destruct (p a); simpl; now rewrite IH.
Qed.

Lemma flat_map_ext_in {A B : Type} (f g : A -> list B) (l : list A) :
  (forall a, In a l -> f a = g a) -> flat_map f l = flat_map g l.
Proof.
  induction l as [|a l IH]; simpl; intros H; [reflexivity|].
  rewrite H by now left. rewrite IH; [reflexivity|].
  intros b Hb. apply H. now right.
Qed.

Lemma flat_map_map {A B D : Type} (f : B -> list D) (h : A -> B) (l : list A) :
  flat_map f (map h l) = flat_map (fun a => f (h a)) l.
Proof.
  induction l as [|a l IH]; simpl; [reflexivity|]. now rewrite IH.
Qed.

Lemma seq_add_map (s n : nat) : seq s n = map (fun j => (s + j)%nat) (seq 0 n).
Proof.
  revert s. induction n as [|n IH]; intros s; simpl; [reflexivity|].
  rewrite Nat.add_0_r. f_equal.
  rewrite <- (seq_shift n 0), map_map, IH. apply map_ext. intros j. lia.
Qed.

Lemma nth_tabulate {A : Type} (f : nat -> A) (n i : nat) (d : A) :
  (i < n)%nat -> nth i (map f (seq 0 n)) d = f i.
Proof.
  intros Hi. rewrite (nth_indep _ d (f 0%nat)) by now rewrite length_map, length_seq.
  rewrite map_nth, seq_nth by assumption. reflexivity.
Qed.

(** Row-major order: the flat voxel index [v] is the voxel
    [(v / y, v mod y)]. *)
Lemma flat_map_row_major {A : Type} (g : nat -> nat -> list A) (x y : nat) :
  flat_map (fun v => g (v / y)%nat (v mod y)%nat) (seq 0 (x * y)) =
  flat_map (fun i => flat_map (g i) (seq 0 y)) (seq 0 x).
Proof.
  induction x as [|x IH].
  - reflexivity.
  - replace (S x * y)%nat with (x * y + y)%nat by lia.
    rewrite seq_app, seq_S, !flat_map_app, IH. f_equal.
    simpl. rewrite app_nil_r, (seq_add_map (x * y) y), flat_map_map.
    apply flat_map_ext_in. intros j Hj. apply in_seq in Hj.
    assert (Hy : y <> 0%nat) by lia.
    rewrite Nat.add_comm, Nat.div_add, Nat.div_small by lia.
    rewrite Nat.Div0.mod_add, Nat.mod_small by lia.
    reflexivity.
Qed.

Lemma reshape_rows (a : array3) :
  reshape a (dim0 a * dim1 a) (dim2 a) =
  Ok (mkArray2 (dim2 a)
        (map (fun v => map (get3 a (v / dim1 a)%nat (v mod dim1 a)%nat)
                           (seq 0 (dim2 a)))
             (seq 0 (dim0 a * dim1 a)))).
Proof.
  unfold reshape. rewrite Nat.eqb_refl. do 2 f_equal.
  apply map_ext. intros v. apply map_ext_in. intros k Hk. apply in_seq in Hk.
  assert (Hd : dim2 a <> 0%nat) by lia.
  cbv zeta.
  rewrite (Nat.mul_comm (dim1 a) (dim2 a)), <- Nat.Div0.div_div.
  rewrite Nat.div_add_l, (Nat.div_small k (dim2 a)) by lia.
  rewrite (Nat.add_comm (v * dim2 a)), Nat.Div0.mod_add.
  rewrite (Nat.mod_small k (dim2 a)) by lia.
  now rewrite Nat.add_0_r.
Qed.

Lemma Cnonzero_mask (z : C) (m : bool) :
  Cnonzero (z * (if m then C1 else C0)) = m && Cnonzero z.
Proof.
  destruct m; simpl.
  - now rewrite Cmul_1_r.
  - rewrite Cmul_0_r. now apply Cnonzero_false.
Qed.

(** The rows of [b1_roi] are the rows of the field map at the voxels of the
    mask where the first element is not zero, in row-major order. *)
Lemma b1_roi_rows (b1_maps : array3) (mask : mask2) :
  (0 < n_Tx b1_maps)%nat ->
  b1_roi b1_maps mask (n_Tx b1_maps) =
  Ok (mkArray2 (n_Tx b1_maps)
        (map (fun v => map (get3 b1_maps (v / dim1 b1_maps)%nat
                                         (v mod dim1 b1_maps)%nat)
                           (seq 0 (n_Tx b1_maps)))
             (filter (fun v => roi_voxels b1_maps mask
                                 (v / dim1 b1_maps)%nat (v mod dim1 b1_maps)%nat)
                     (seq 0 (dim0 b1_maps * dim1 b1_maps))))).
Proof.
  unfold n_Tx. intros Hn. unfold b1_roi.
  pose proof (reshape_rows (mask_mul b1_maps mask)) as Hr.
  cbn [dim0 dim1 dim2 mask_mul] in Hr. rewrite Hr. clear Hr.
  unfold bind, rows_col0_nonzero. cbn [ncols2 rows2].
  destruct (Nat.eqb_spec (dim2 b1_maps) 0) as [E | _]; [lia|].
  do 2 f_equal.
  rewrite filter_map_comm.
  rewrite (filter_ext _ (fun v => roi_voxels b1_maps mask
                           (v / dim1 b1_maps)%nat (v mod dim1 b1_maps)%nat)).
  2:{ intros v. rewrite nth_tabulate by assumption. cbn [get3 mask_mul].
      unfold roi_voxels. apply Cnonzero_mask. }
  apply map_ext_in. intros v Hv. apply filter_In in Hv as [_ Hv].
  unfold roi_voxels in Hv. apply andb_true_iff in Hv as [Hm _].
  apply map_ext. intros k. cbn [get3 mask_mul]. rewrite Hm. apply Cmul_1_r.
Qed.

(** The product of [b1_roi] with a weight vector is the combined field at
    the voxels [b1_roi] keeps. *)
Lemma b1_roi_matmul (b1_maps : array3) (mask : mask2) (w : list C) :
  (0 < n_Tx b1_maps)%nat ->
  (roi <- b1_roi b1_maps mask (n_Tx b1_maps) ;; np.matmul_2d_1d roi w) =
  (b1 <- combined_field b1_maps w ;; Ok (select2 b1 (roi_voxels b1_maps mask))).
Proof.
  intros Hn. rewrite b1_roi_rows by assumption.
  unfold bind, combined_field, np.matmul_2d_1d, np.matmul_3d_1d, n_Tx.
  cbn [ncols2 rows2].
  destruct (Nat.eqb_spec (dim2 b1_maps) (length w)) as [E | E]; [|reflexivity].
  f_equal. unfold select2. cbn [ncols2 rows2].
  rewrite length_map, length_seq, map_map, map_filter_flat_map.
  rewrite (flat_map_row_major
             (fun i j => if roi_voxels b1_maps mask i j
                         then [np.dot (map (get3 b1_maps i j) (seq 0 (dim2 b1_maps))) w]
                         else [])).
  apply flat_map_ext_in. intros i Hi. apply in_seq in Hi.
  apply flat_map_ext_in. intros j Hj. apply in_seq in Hj.
  destruct (roi_voxels b1_maps mask i j); [|reflexivity].
  f_equal. rewrite nth_tabulate by lia. rewrite nth_tabulate by lia.
  rewrite E. apply dot_tabulate_0.
Qed.

(** ** The objectives and the mask *)

Lemma bind_assoc {A B D : Type} (r : result A) (f : A -> result B)
    (g : B -> result D) :
  (b <- (a <- r ;; f a) ;; g b) = (a <- r ;; b <- f a ;; g b).
Proof. destruct r; reflexivity. Qed.

Lemma Cnonzero_RtoC (x : R) : x <> 0 -> Cnonzero (RtoC x) = true.
Proof.
  intros Hx. apply Cnonzero_true. intros E. apply Hx.
  now apply (f_equal Re) in E.
Qed.

Lemma Cnonzero_C0 : Cnonzero C0 = false.
Proof. now apply Cnonzero_false. Qed.

Lemma Cnonzero_C1 : Cnonzero C1 = true.
Proof. apply Cnonzero_RtoC. lra. Qed.

Lemma polar_0 (m : R) : Encoding.polar m 0 = RtoC m.
Proof.
  unfold Encoding.polar, np.exp_1j. rewrite cos_0, sin_0.
  apply C_eq; simpl; ring.
Qed.

(** [variation] of one value and of the two values 3 and 1. *)
Lemma variation_singleton (a : R) : a <> 0 -> variation [a] = Some 0.
Proof.
  intros Ha. unfold variation.
  assert (Hm : mean [a] = a) by (unfold mean; simpl; field).
  rewrite Hm. destruct (Req_dec_T a 0) as [E | _]; [contradiction|].
  f_equal. unfold std. rewrite Hm. unfold mean. simpl.
  replace (((a - a) * (a - a) + 0) / 1) with 0 by field.
  rewrite sqrt_0. field. assumption.
Qed.

Lemma variation_3_1 : variation [3; 1] = Some (1 / 2).
Proof.
  unfold variation.
  assert (Hm : mean [3; 1] = 2) by (unfold mean; simpl; field).
  rewrite Hm. destruct (Req_dec_T 2 0) as [E | _]; [lra|].
  f_equal. unfold std. rewrite Hm. unfold mean. simpl.
  replace (((3 - 2) * (3 - 2) + ((1 - 2) * (1 - 2) + 0)) / (1 + 1)) with 1
    by field.
  now rewrite sqrt_1.
Qed.

Lemma combined_field_b1_small :
  combined_field b1_small [C1; C1] = Ok (mkArray2 2 [[RtoC 3; RtoC 1]]).
Proof.
  unfold combined_field, np.matmul_3d_1d. simpl.
  f_equal. f_equal. f_equal. f_equal; [|f_equal]; apply C_eq; simpl; ring.
Qed.

Section Objectives.

Variable vector_to_complex : list R -> list C.

(** C2, as the code has it.  For every field map with at least one
    element, every mask and every parameter vector, with [b1_roi] reshaped
    to as many columns as the map has elements, both objectives are
    evaluated over exactly the voxels of the mask at which the field of the
    first element is not zero: the CoV cost is [variation] of the magnitude
    of the combined field at those voxels, and the target-value cost is the
    sum of its squared deviations from the target there (both raise
    [ValueError] when the number of decoded weights is not the element
    count). *)
Theorem cost_functions_over_roi_voxels (b1_maps : array3) (mask : mask2)
    (target : R) (x : list R) :
  (0 < n_Tx b1_maps)%nat ->
  (roi <- b1_roi b1_maps mask (n_Tx b1_maps) ;;
   cost_function vector_to_complex roi x) =
  CoV b1_maps (roi_voxels b1_maps mask) (vector_to_complex x)
  /\
  (roi <- b1_roi b1_maps mask (n_Tx b1_maps) ;;
   cost_function_MLS vector_to_complex roi target x) =
  MLS b1_maps (roi_voxels b1_maps mask) target (vector_to_complex x).
Proof.
  intros Hn. unfold cost_function, cost_function_MLS, CoV, MLS.
  rewrite <- !bind_assoc, b1_roi_matmul by assumption.
  rewrite !bind_assoc. split; reflexivity.
Qed.

End Objectives.

Lemma vector_to_complex_ones :
  Encoding.vector_to_complex [1; 1; 0; 0] = [C1; C1].
Proof.
  unfold Encoding.vector_to_complex. simpl. now rewrite polar_0.
Qed.

Lemma cost_functions_over_roi_voxels_witness :
  (0 < n_Tx b1_small)%nat /\
  (roi <- b1_roi b1_small mask_all (n_Tx b1_small) ;;
   cost_function Encoding.vector_to_complex roi [1; 1; 0; 0]) =
  CoV b1_small (roi_voxels b1_small mask_all)
      (Encoding.vector_to_complex [1; 1; 0; 0])
  /\
  (roi <- b1_roi b1_small mask_all (n_Tx b1_small) ;;
   cost_function_MLS Encoding.vector_to_complex roi 1 [1; 1; 0; 0]) =
  MLS b1_small (roi_voxels b1_small mask_all) 1
      (Encoding.vector_to_complex [1; 1; 0; 0]).
Proof.
  split.
  - simpl. lia.
  - apply (cost_functions_over_roi_voxels Encoding.vector_to_complex
             b1_small mask_all 1 [1; 1; 0; 0]).
    simpl. lia.
Defined.

(** C2 as stated fails.  On the field map [b1_small] with the mask that
    selects both voxels and the weights [(1, 1)], the combined field has
    magnitude 3 at the first voxel and 1 at the second.  Over the mask the
    CoV is 1/2 and the sum of squared deviations from the target 1 is 4;
    the cost functions return 0 and 0: the first voxel, where the first
    element is silent, is in the mask and does not contribute. *)
Lemma cost_function_skips_masked_voxel :
  ((roi <- b1_roi b1_small mask_all (n_Tx b1_small) ;;
    cost_function Encoding.vector_to_complex roi [1; 1; 0; 0]) = Ok (Some 0)
   /\ CoV b1_small mask_all (Encoding.vector_to_complex [1; 1; 0; 0])
      = Ok (Some (1 / 2))
   /\ (roi <- b1_roi b1_small mask_all (n_Tx b1_small) ;;
       cost_function_MLS Encoding.vector_to_complex roi 1 [1; 1; 0; 0])
      = Ok (Some 0)
   /\ MLS b1_small mask_all 1 (Encoding.vector_to_complex [1; 1; 0; 0])
      = Ok (Some 4))
  /\ (roi <- b1_roi b1_small mask_all (n_Tx b1_small) ;;
      cost_function Encoding.vector_to_complex roi [1; 1; 0; 0])
     <> CoV b1_small mask_all (Encoding.vector_to_complex [1; 1; 0; 0])
  /\ (roi <- b1_roi b1_small mask_all (n_Tx b1_small) ;;
      cost_function_MLS Encoding.vector_to_complex roi 1 [1; 1; 0; 0])
     <> MLS b1_small mask_all 1 (Encoding.vector_to_complex [1; 1; 0; 0]).
Proof.
  assert (Hvalues :
    (roi <- b1_roi b1_small mask_all (n_Tx b1_small) ;;
     cost_function Encoding.vector_to_complex roi [1; 1; 0; 0]) = Ok (Some 0)
    /\ CoV b1_small mask_all (Encoding.vector_to_complex [1; 1; 0; 0])
       = Ok (Some (1 / 2))
    /\ (roi <- b1_roi b1_small mask_all (n_Tx b1_small) ;;
        cost_function_MLS Encoding.vector_to_complex roi 1 [1; 1; 0; 0])
       = Ok (Some 0)
    /\ MLS b1_small mask_all 1 (Encoding.vector_to_complex [1; 1; 0; 0])
       = Ok (Some 4));
  [|split; [exact Hvalues|];
    destruct Hvalues as [-> [-> [-> ->]]];
    split; intros [= E]; lra].
  assert (Hroi : (roi <- b1_roi b1_small mask_all (n_Tx b1_small) ;;
                  np.matmul_2d_1d roi [C1; C1]) = Ok [RtoC 1]).
  { rewrite b1_roi_matmul by (simpl; lia).
    rewrite combined_field_b1_small. unfold select2, roi_voxels. simpl.
    now rewrite Cnonzero_C0, Cnonzero_C1. }
  unfold cost_function, cost_function_MLS, CoV, MLS.
  rewrite vector_to_complex_ones, <- !bind_assoc, Hroi, combined_field_b1_small.
  simpl. rewrite !abs_RtoC by lra.
  repeat split.
  - now rewrite variation_singleton by lra.
  - now rewrite variation_3_1.
  - do 2 f_equal. ring.
  - do 2 f_equal. ring.
Qed.

(** ** A mask that selects no voxel *)

Lemma filter_none {A : Type} (p : A -> bool) (l : list A) :
  (forall a, In a l -> p a = false) -> filter p l = [].
Proof.
  induction l as [|a l IH]; simpl; intros H; [reflexivity|].
  rewrite H by now left. apply IH. intros b Hb. apply H. now right.
Qed.

Lemma b1_roi_no_voxel (b1_maps : array3) (mask : mask2) :
  (0 < n_Tx b1_maps)%nat ->
  selects_no_voxel b1_maps mask ->
  b1_roi b1_maps mask (n_Tx b1_maps) = Ok (mkArray2 (n_Tx b1_maps) []).
Proof.
  intros Hn Hm. rewrite b1_roi_rows by assumption.
  rewrite filter_none; [reflexivity|].
  intros v Hv. apply in_seq in Hv. unfold roi_voxels.
  rewrite Hm; [reflexivity | |].
  - apply Nat.Div0.div_lt_upper_bound. lia.
  - apply Nat.mod_upper_bound. nia.
Qed.

Lemma minimize_x0_raises_only_from_callbacks :
  raises_only_from_callbacks minimize_x0.
Proof.
  intros f x0 cons Hf Hg. unfold minimize_x0.
  destruct (Hf x0 eq_refl) as [v ->]. simpl.
  destruct cons as [g|].
  - destruct (Hg g eq_refl x0 eq_refl) as [u ->]. simpl. now exists x0.
  - now exists x0.
Qed.

Section EmptyMask.

Variable vector_to_complex : list R -> list C.
Variable complex_to_vector : list C -> list R.
Variable minimize :
  (list R -> result float) -> list R -> option (list R -> result R) ->
  result (list R).

Lemma cost_function_no_row (n : nat) (x : list R) :
  length (vector_to_complex x) = n ->
  cost_function vector_to_complex (mkArray2 n []) x = Ok None.
Proof.
  intros Hx. unfold cost_function, np.matmul_2d_1d. cbn [ncols2 rows2].
  now rewrite Hx, Nat.eqb_refl.
Qed.

(** C3, as the code has it.  For every field map with at least one element
    and every mask that selects no voxel, nothing is raised: [b1_roi] is a
    matrix without rows, the CoV cost is not a number at every parameter
    vector that decodes to one weight per element, and a solver that raises
    only what its callbacks raise returns, so that the optimization yields
    a weight vector. *)
Theorem empty_mask_nan_cost (b1_maps : array3) (mask : mask2)
    (initial_weights : list C) :
  (0 < n_Tx b1_maps)%nat ->
  selects_no_voxel b1_maps mask ->
  (forall x, length x = length (complex_to_vector initial_weights) ->
             length (vector_to_complex x) = n_Tx b1_maps) ->
  raises_only_from_callbacks minimize ->
  b1_roi b1_maps mask (n_Tx b1_maps) = Ok (mkArray2 (n_Tx b1_maps) [])
  /\ (forall x, length (vector_to_complex x) = n_Tx b1_maps ->
        (roi <- b1_roi b1_maps mask (n_Tx b1_maps) ;;
         cost_function vector_to_complex roi x) = Ok None)
  /\ exists w,
       weights_PM vector_to_complex complex_to_vector minimize
                  b1_maps mask (n_Tx b1_maps) initial_weights = Ok w.
Proof.
  intros Hn Hm Hlen Hsolver.
  pose proof (b1_roi_no_voxel b1_maps mask Hn Hm) as Hroi.
  split; [assumption | split].
  - intros x Hx. rewrite Hroi. simpl. now apply cost_function_no_row.
  - unfold weights_PM. rewrite Hroi. simpl.
    destruct (Hsolver (cost_function vector_to_complex (mkArray2 (n_Tx b1_maps) []))
                      (complex_to_vector initial_weights) None) as [x Hx].
    + intros x Hx. exists None. apply cost_function_no_row. now apply Hlen.
    + discriminate.
    + rewrite Hx. simpl. now eexists.
Qed.

End EmptyMask.

Lemma selects_no_voxel_mask_none (b1_maps : array3) :
  selects_no_voxel b1_maps mask_none.
Proof. intros i j _ _. reflexivity. Qed.

Lemma empty_mask_nan_cost_witness :
  (0 < n_Tx b1_single)%nat /\
  selects_no_voxel b1_single mask_none /\
  b1_roi b1_single mask_none (n_Tx b1_single) = Ok (mkArray2 (n_Tx b1_single) [])
  /\ (forall x, length (Encoding.vector_to_complex x) = n_Tx b1_single ->
        (roi <- b1_roi b1_single mask_none (n_Tx b1_single) ;;
         cost_function Encoding.vector_to_complex roi x) = Ok None)
  /\ exists w,
       weights_PM Encoding.vector_to_complex Encoding.complex_to_vector
                  minimize_x0 b1_single mask_none (n_Tx b1_single) [C1] = Ok w.
Proof.
  split; [simpl; lia | split; [apply selects_no_voxel_mask_none|]].
  apply (empty_mask_nan_cost Encoding.vector_to_complex
           Encoding.complex_to_vector minimize_x0 b1_single mask_none [C1]).
  - simpl. lia.
  - apply selects_no_voxel_mask_none.
  - intros x Hx. rewrite EncodingFacts.length_vector_to_complex, Hx.
    reflexivity.
  - apply minimize_x0_raises_only_from_callbacks.
Defined.

(** C3 as stated fails.  On the one-voxel field map [b1_single] with the
    mask that selects nothing, the cost function raises nothing and returns
    a value that is not a number; with the solver that evaluates the cost at
    the starting point and returns it, the optimization returns the initial
    weights. *)
Lemma empty_mask_not_invalid_input :
  selects_no_voxel b1_single mask_none
  /\ (roi <- b1_roi b1_single mask_none (n_Tx b1_single) ;;
      cost_function Encoding.vector_to_complex roi
        (Encoding.complex_to_vector [C1])) = Ok None
  /\ weights_PM Encoding.vector_to_complex Encoding.complex_to_vector
                minimize_x0 b1_single mask_none (n_Tx b1_single) [C1] = Ok [C1]
  /\ weights_PM Encoding.vector_to_complex Encoding.complex_to_vector
                minimize_x0 b1_single mask_none (n_Tx b1_single) [C1]
     <> Raise InvalidInput.
Proof.
  assert (Hw : weights_PM Encoding.vector_to_complex Encoding.complex_to_vector
                 minimize_x0 b1_single mask_none (n_Tx b1_single) [C1]
               = Ok [C1] ->
               weights_PM Encoding.vector_to_complex Encoding.complex_to_vector
                 minimize_x0 b1_single mask_none (n_Tx b1_single) [C1]
               <> Raise InvalidInput) by (intros ->; discriminate).
  cut (selects_no_voxel b1_single mask_none
       /\ (roi <- b1_roi b1_single mask_none (n_Tx b1_single) ;;
           cost_function Encoding.vector_to_complex roi
             (Encoding.complex_to_vector [C1])) = Ok None
       /\ weights_PM Encoding.vector_to_complex Encoding.complex_to_vector
                     minimize_x0 b1_single mask_none (n_Tx b1_single) [C1]
          = Ok [C1]); [tauto|]. clear Hw.
  pose proof (b1_roi_no_voxel b1_single mask_none) as Hroi.
  rewrite Hroi; [|simpl; lia | apply selects_no_voxel_mask_none].
  split; [apply selects_no_voxel_mask_none | split].
  - cbn [bind]. apply cost_function_no_row. now rewrite EncodingFacts.roundtrip.
  - unfold weights_PM. rewrite Hroi;
      [|simpl; lia | apply selects_no_voxel_mask_none].
    cbn [bind]. unfold minimize_x0.
    rewrite cost_function_no_row by now rewrite EncodingFacts.roundtrip.
    cbn [bind]. now rewrite EncodingFacts.roundtrip.
Qed.

(** ** The derived masks *)

(** C4, as the code has it.  The phase-only notebook computes its mask as
    the voxels where the first-element slice of the field map is not zero.
    The complex-shimming notebook, whose optimization takes no mask
    argument, derives the mask as the voxels where the sum of the field map
    over the elements is not zero, and its optimization runs on the voxels
    of that mask at which the first element is not zero: these are the rows
    of [b1_roi], and both cost functions are evaluated over them. *)
Theorem derived_masks (vector_to_complex : list R -> list C)
    (b1_maps : array3) (target : R) (x : list R) :
  (0 < n_Tx b1_maps)%nat ->
  (exists m, mask_first_element b1_maps = Ok m /\
     forall i j, m i j = true <-> get3 b1_maps i j 0 <> C0)
  /\ (forall i j,
        (mask_sum b1_maps i j = true <->
         Csum (map (get3 b1_maps i j) (seq 0 (n_Tx b1_maps))) <> C0)
        /\ (roi_voxels b1_maps (mask_sum b1_maps) i j = true <->
            Csum (map (get3 b1_maps i j) (seq 0 (n_Tx b1_maps))) <> C0
            /\ get3 b1_maps i j 0 <> C0))
  /\ b1_roi b1_maps (mask_sum b1_maps) (n_Tx b1_maps) =
     Ok (mkArray2 (n_Tx b1_maps)
           (map (fun v => map (get3 b1_maps (v / dim1 b1_maps)%nat
                                            (v mod dim1 b1_maps)%nat)
                              (seq 0 (n_Tx b1_maps)))
                (filter (fun v => roi_voxels b1_maps (mask_sum b1_maps)
                                    (v / dim1 b1_maps)%nat
                                    (v mod dim1 b1_maps)%nat)
                        (seq 0 (dim0 b1_maps * dim1 b1_maps)))))
  /\ (roi <- b1_roi b1_maps (mask_sum b1_maps) (n_Tx b1_maps) ;;
      cost_function vector_to_complex roi x) =
     CoV b1_maps (roi_voxels b1_maps (mask_sum b1_maps)) (vector_to_complex x)
  /\ (roi <- b1_roi b1_maps (mask_sum b1_maps) (n_Tx b1_maps) ;;
      cost_function_MLS vector_to_complex roi target x) =
     MLS b1_maps (roi_voxels b1_maps (mask_sum b1_maps)) target
         (vector_to_complex x).
Proof.
  intros Hn. split; [|split; [|split; [|split]]].
  - unfold mask_first_element. unfold n_Tx in Hn.
    destruct (Nat.eqb_spec (dim2 b1_maps) 0) as [E | _]; [lia|].
    eexists. split; [reflexivity|]. intros i j. apply Cnonzero_true.
  - intros i j. split.
    + unfold mask_sum, n_Tx. apply Cnonzero_true.
    + unfold roi_voxels, mask_sum, n_Tx.
      now rewrite andb_true_iff, !Cnonzero_true.
  - now apply b1_roi_rows.
  - unfold cost_function, CoV.
    rewrite <- !bind_assoc, b1_roi_matmul by assumption.
    now rewrite !bind_assoc.
  - unfold cost_function_MLS, MLS.
    rewrite <- !bind_assoc, b1_roi_matmul by assumption.
    now rewrite !bind_assoc.
Qed.

Ltac Cnz_true :=
  apply Cnonzero_true; intros E; apply (f_equal Re) in E; simpl in E; lra.

Ltac Cnz_false := apply Cnonzero_false, C_eq; simpl; ring.

(** On [b1_three] the two masks differ at two of the three voxels, and the
    optimization runs on the second voxel alone: the first is in the mask
    of the complex-shimming notebook and is dropped from [b1_roi], the
    third has a first element that is not zero and is not in that mask. *)
Lemma derived_masks_witness :
  (0 < n_Tx b1_three)%nat /\
  (mask_sum b1_three 0%nat 0%nat = true /\
   mask_sum b1_three 0%nat 1%nat = true /\
   mask_sum b1_three 0%nat 2%nat = false) /\
  (exists m, mask_first_element b1_three = Ok m /\
     m 0%nat 0%nat = false /\ m 0%nat 1%nat = true /\ m 0%nat 2%nat = true) /\
  b1_roi b1_three (mask_sum b1_three) (n_Tx b1_three)
  = Ok (mkArray2 2 [[C1; C0]]) /\
  (roi <- b1_roi b1_three (mask_sum b1_three) (n_Tx b1_three) ;;
   cost_function Encoding.vector_to_complex roi [1; 1; 0; 0]) =
  CoV b1_three (roi_voxels b1_three (mask_sum b1_three))
      (Encoding.vector_to_complex [1; 1; 0; 0]) /\
  (roi <- b1_roi b1_three (mask_sum b1_three) (n_Tx b1_three) ;;
   cost_function_MLS Encoding.vector_to_complex roi 1 [1; 1; 0; 0]) =
  MLS b1_three (roi_voxels b1_three (mask_sum b1_three)) 1
      (Encoding.vector_to_complex [1; 1; 0; 0]).
Proof.
  assert (Hn : (0 < n_Tx b1_three)%nat) by (simpl; lia).
  assert (S0 : mask_sum b1_three 0%nat 0%nat = true) by (unfold mask_sum; simpl; Cnz_true).
  assert (S1 : mask_sum b1_three 0%nat 1%nat = true) by (unfold mask_sum; simpl; Cnz_true).
  assert (S2 : mask_sum b1_three 0%nat 2%nat = false) by (unfold mask_sum; simpl; Cnz_false).
  destruct (derived_masks Encoding.vector_to_complex b1_three 1 [1; 1; 0; 0] Hn)
    as [[m [Hm Hfirst]] [_ [Hroi [Hcost HMLS]]]].
  split; [exact Hn | split; [exact (conj S0 (conj S1 S2))|]].
  split; [|split; [|split; [exact Hcost | exact HMLS]]].
  - exists m. split; [exact Hm|]. split; [|split].
    + destruct (m 0%nat 0%nat) eqn:E; [|reflexivity].
      apply Hfirst in E. exfalso. apply E. reflexivity.
    + apply Hfirst. simpl. apply Cnonzero_true, Cnonzero_C1.
    + apply Hfirst. simpl. apply Cnonzero_true, Cnonzero_C1.
  - rewrite Hroi. unfold roi_voxels. simpl.
    rewrite S0, S1, S2. simpl. rewrite Cnonzero_C0, Cnonzero_C1. reflexivity.
Defined.

(** C4 as stated fails.  At the single voxel of [b1_cancel] the fields of
    the two elements are 1 and -1: the first-element slice is not zero
    there, and the mask of the complex-shimming notebook leaves the voxel
    out. *)
Lemma mask_sum_not_first_element :
  mask_sum b1_cancel 0%nat 0%nat = false
  /\ Cnonzero (get3 b1_cancel 0 0 0) = true
  /\ mask_first_element b1_cancel <> Ok (mask_sum b1_cancel).
Proof.
  assert (H0 : mask_sum b1_cancel 0%nat 0%nat = false).
  { unfold mask_sum. simpl. apply Cnonzero_false, C_eq; simpl; ring. }
  assert (H1 : Cnonzero (get3 b1_cancel 0 0 0) = true) by apply Cnonzero_C1.
  split; [assumption | split; [assumption|]].
  unfold mask_first_element. simpl. intros [= E].
  apply (f_equal (fun m => m 0%nat 0%nat)) in E. simpl in E.
  rewrite H0 in E. change (Cnonzero C1 = false) in E.
  rewrite Cnonzero_C1 in E. discriminate.
Qed.

(** ** A weight vector of the wrong length *)

Lemma combined_field_length_mismatch (b1_maps : array3) (w : list C) :
  length w <> n_Tx b1_maps -> combined_field b1_maps w = Raise ValueError.
Proof.
  intros H. unfold combined_field, np.matmul_3d_1d, n_Tx in *.
  destruct (Nat.eqb_spec (dim2 b1_maps) (length w)) as [E | _];
    [congruence | reflexivity].
Qed.

(** The first cell reshapes to the literal 8 columns: a field map of another
    element count, with at least one voxel, raises there. *)
Lemma b1_roi_column_mismatch (b1_maps : array3) (mask : mask2) (ncols : nat) :
  ncols <> n_Tx b1_maps ->
  (0 < dim0 b1_maps * dim1 b1_maps)%nat ->
  b1_roi b1_maps mask ncols = Raise ValueError.
Proof.
  unfold n_Tx. intros Hn Hv. unfold b1_roi, reshape. cbn [dim0 dim1 dim2 mask_mul].
  destruct (Nat.eqb_spec (dim0 b1_maps * dim1 b1_maps * dim2 b1_maps)
                         (dim0 b1_maps * dim1 b1_maps * ncols)) as [E | _];
    [|reflexivity].
  exfalso. apply Hn. symmetry. nia.
Qed.

Section LengthMismatch.

Variable vector_to_complex : list R -> list C.

(** C9.  Whenever the number of weights differs from the element count of
    the field map, the operation raises [ValueError], the spec's
    InvalidInput, and the exception is the result the caller gets: the
    combined field [b1_maps @ weights], the reported CoV, [max_SAR] with
    VOP matrices of the size of the element count, and, on a field map
    with at least one element, both cost functions at every parameter
    vector that decodes to these weights. *)
Theorem weight_length_mismatch_raises (b1_maps : array3) (mask : mask2)
    (weights : list C) :
  length weights <> n_Tx b1_maps ->
  combined_field b1_maps weights = Raise InvalidInput
  /\ CoV b1_maps mask weights = Raise InvalidInput
  /\ (forall vop, dim0 vop = n_Tx b1_maps -> dim1 vop = n_Tx b1_maps ->
        max_SAR weights vop = Raise InvalidInput)
  /\ (forall x target,
        vector_to_complex x = weights -> (0 < n_Tx b1_maps)%nat ->
        (roi <- b1_roi b1_maps mask (n_Tx b1_maps) ;;
         cost_function vector_to_complex roi x) = Raise InvalidInput
        /\ (roi <- b1_roi b1_maps mask (n_Tx b1_maps) ;;
            cost_function_MLS vector_to_complex roi target x)
           = Raise InvalidInput).
Proof.
  intros H. unfold InvalidInput.
  pose proof (combined_field_length_mismatch b1_maps weights H) as Hc.
  split; [assumption | split; [|split]].
  - unfold CoV. now rewrite Hc.
  - intros vop H0 H1. apply max_SAR_length_mismatch. left. congruence.
  - intros x target Hx Hn. unfold cost_function, cost_function_MLS.
    rewrite <- !bind_assoc, b1_roi_matmul, Hx, Hc by assumption.
    split; reflexivity.
Qed.

End LengthMismatch.

Lemma vector_to_complex_one : Encoding.vector_to_complex [1; 0] = [C1].
Proof.
  unfold Encoding.vector_to_complex. simpl. now rewrite polar_0.
Qed.

(** The instance of the first cell: [weights_sTx = np.ones(8)] on a field
    map of two elements. *)
Lemma weight_length_mismatch_raises_witness :
  length (np.ones 8) <> n_Tx b1_small /\
  combined_field b1_small (np.ones 8) = Raise InvalidInput
  /\ max_SAR (np.ones 8) vop_1 = Raise InvalidInput
  /\ (roi <- b1_roi b1_small mask_all (n_Tx b1_small) ;;
      cost_function Encoding.vector_to_complex roi
        (Encoding.complex_to_vector (np.ones 8))) = Raise InvalidInput.
Proof.
  assert (H : length (np.ones 8) <> n_Tx b1_small) by (simpl; lia).
  split; [exact H|].
  destruct (weight_length_mismatch_raises Encoding.vector_to_complex
              b1_small mask_all (np.ones 8) H) as [Hc [_ [Hs Hx]]].
  split; [exact Hc | split].
  - apply Hs; reflexivity.
  - apply (Hx (Encoding.complex_to_vector (np.ones 8)) 0);
      [apply EncodingFacts.roundtrip | simpl; lia].
Defined.

(** ** Scaling the weights: an instance *)

Lemma variation_1_1 : variation [1; 1] = Some 0.
Proof.
  unfold variation.
  assert (Hm : mean [1; 1] = 1) by (unfold mean; simpl; field).
  rewrite Hm. destruct (Req_dec_T 1 0) as [E | _]; [lra|].
  f_equal. unfold std. rewrite Hm. unfold mean. simpl.
  replace (((1 - 1) * (1 - 1) + ((1 - 1) * (1 - 1) + 0)) / (1 + 1)) with 0
    by field.
  rewrite sqrt_0. field.
Qed.

Lemma vector_to_complex_3_1 :
  Encoding.vector_to_complex [3; 1; 0; 0] = [RtoC 3; RtoC 1].
Proof.
  unfold Encoding.vector_to_complex. simpl. now rewrite !polar_0.
Qed.

Lemma matmul_roi_two (a b : R) :
  fmap (map np.abs) (np.matmul_2d_1d roi_two [RtoC a; RtoC b])
  = Ok [Rabs a; Rabs b].
Proof.
  unfold np.matmul_2d_1d, np.dot, roi_two. simpl. do 2 f_equal; [|f_equal].
  - replace (C1 * RtoC a + (C0 * RtoC b + C0))%C with (RtoC a)
      by (apply C_eq; simpl; ring).
    unfold np.abs, RtoC. simpl. replace (a * a + 0 * 0) with (a * a) by ring.
    fold (Rsqr a). apply sqrt_Rsqr_abs.
  - replace (C0 * RtoC a + (C1 * RtoC b + C0))%C with (RtoC b)
      by (apply C_eq; simpl; ring).
    unfold np.abs, RtoC. simpl. replace (b * b + 0 * 0) with (b * b) by ring.
    fold (Rsqr b). apply sqrt_Rsqr_abs.
Qed.

Lemma cost_roi_two (x : list R) (a b : R) :
  Encoding.vector_to_complex x = [RtoC a; RtoC b] ->
  cost_function Encoding.vector_to_complex roi_two x
  = Ok (variation [Rabs a; Rabs b]).
Proof.
  intros Hx. unfold cost_function. rewrite Hx.
  pose proof (matmul_roi_two a b) as H.
  destruct (np.matmul_2d_1d roi_two [RtoC a; RtoC b]) as [s | e];
    simpl in H; [|discriminate].
  cbn [bind]. injection H as ->. reflexivity.
Qed.

(** On the ROI [roi_two] the CoV cost depends on the weights: it is 1/2 at
    the weights (3, 1) and 0 at the weights (1, 1), which minimize it.  The
    cost at the weights (3i, i) is 1/2 again, and the minimizer (1, 1) is
    not the only one. *)
Lemma cost_function_scale_invariant_witness :
  Ci <> C0 /\
  cost_function Encoding.vector_to_complex roi_two [3; 1; 0; 0]
  = Ok (Some (1 / 2)) /\
  (forall w, Encoding.vector_to_complex (Encoding.complex_to_vector w) = w) /\
  (exists x',
     Encoding.vector_to_complex x'
     = scale Ci (Encoding.vector_to_complex [3; 1; 0; 0])
     /\ cost_function Encoding.vector_to_complex roi_two x'
        = Ok (Some (1 / 2))) /\
  is_minimizer (cost_function Encoding.vector_to_complex roi_two) [1; 1; 0; 0] /\
  (exists y, y <> [1; 1; 0; 0]
             /\ is_minimizer (cost_function Encoding.vector_to_complex roi_two) y).
Proof.
  assert (Hi : Ci <> C0).
  { intros E. apply (f_equal Im) in E. simpl in E. lra. }
  assert (H31 : cost_function Encoding.vector_to_complex roi_two [3; 1; 0; 0]
                = Ok (Some (1 / 2))).
  { rewrite (cost_roi_two _ 3 1 vector_to_complex_3_1).
    rewrite !Rabs_pos_eq by lra. now rewrite variation_3_1. }
  assert (H11 : cost_function Encoding.vector_to_complex roi_two [1; 1; 0; 0]
                = Ok (Some 0)).
  { rewrite (cost_roi_two _ 1 1 vector_to_complex_ones).
    rewrite !Rabs_pos_eq by lra. now rewrite variation_1_1. }
  assert (Hmin : is_minimizer (cost_function Encoding.vector_to_complex roi_two)
                   [1; 1; 0; 0]).
  { exists 0. split; [exact H11|]. intros y u Hu.
    exact (cost_function_nonneg Encoding.vector_to_complex roi_two y u Hu). }
  split; [exact Hi | split; [exact H31 | split; [exact EncodingFacts.roundtrip|]]].
  destruct (cost_function_scale_invariant Encoding.vector_to_complex
              Encoding.complex_to_vector roi_two Ci [3; 1; 0; 0] Hi
              (ex_intro _ (1 / 2) H31)) as [_ Hex].
  destruct (Hex EncodingFacts.roundtrip) as [[x' [Hx' Hc']] _].
  split; [exists x'; split; [exact Hx' | now rewrite Hc']|].
  split; [exact Hmin|].
  destruct (cost_function_scale_invariant Encoding.vector_to_complex
              Encoding.complex_to_vector roi_two Ci [1; 1; 0; 0] Hi
              (ex_intro _ 0 H11)) as [_ Hex1].
  exact (proj2 (Hex1 EncodingFacts.roundtrip) Hmin).
Defined.

(** ** The SAR constraint handed to the solver *)

(** The inequality constraint [-max_SAR(vector_to_complex(x), vop) + SAR_limit],
    which the solver is to keep non-negative, is non-negative exactly when
    [max_SAR] of the decoded weights is at most the limit. *)
Lemma cons_fun_feasible (vector_to_complex : list R -> list C)
    (vop : array3) (SAR_limit : R) (x : list R) (g : R) :
  cons_fun vector_to_complex vop SAR_limit x = Ok g ->
  (0 <= g <->
   exists s, max_SAR (vector_to_complex x) vop = Ok s /\ s <= SAR_limit).
Proof.
  unfold cons_fun. destruct (max_SAR (vector_to_complex x) vop) as [s | e];
    simpl; [|discriminate].
  intros [= <-]. split.
  - intros H. exists s. split; [reflexivity | lra].
  - intros [s' [[= <-] H]]. lra.
Qed.

(* ================================================================== *)
(** * Further properties of the cells *)

(** ** [np.max] and [max_SAR] *)

Lemma fold_Rmax_ge (l : list R) (x : R) :
  x <= fold_left Rmax l x /\ Forall (fun y => y <= fold_left Rmax l x) l.
Proof.
  revert x. induction l as [|a l IH]; intros x; simpl.
  - split; [lra | constructor].
  - destruct (IH (Rmax x a)) as [H1 H2].
    pose proof (Rmax_l x a). pose proof (Rmax_r x a).
    split; [lra|]. constructor; [lra | assumption].
Qed.

Lemma fold_Rmax_In (l : list R) (x : R) : In (fold_left Rmax l x) (x :: l).
Proof.
  revert x. induction l as [|a l IH]; intros x; simpl.
  - now left.
  - destruct (IH (Rmax x a)) as [H | H].
    + unfold Rmax in H at 1. destruct (Rle_dec x a); auto.
    + auto.
Qed.

(** [np.max] returns an entry of the array that no entry exceeds. *)
Lemma np_max_spec (l : list R) (m : R) :
  np.max l = Ok m <-> In m l /\ Forall (fun y => y <= m) l.
Proof.
  destruct l as [|x l]; simpl.
  - split; [discriminate | intros [[] _]].
  - split.
    + intros [= <-]. split; [apply fold_Rmax_In|].
      destruct (fold_Rmax_ge l x). now constructor.
    + intros [Hin Hall]. f_equal.
      pose proof (fold_Rmax_In l x) as Hin'.
      destruct (fold_Rmax_ge l x) as [H1 H2].
      assert (Hall' : Forall (fun y => y <= fold_left Rmax l x) (x :: l))
        by now constructor.
      rewrite Forall_forall in Hall, Hall'.
      apply Rle_antisym; [apply Hall | apply Hall']; assumption.
Qed.

Lemma np_max_nonempty (l : list R) : l <> [] -> exists m, np.max l = Ok m.
Proof.
  destruct l as [|x l]; [congruence | intros _; simpl; eauto].
Qed.

Lemma np_max_Permutation (l l' : list R) :
  Permutation l l' -> np.max l = np.max l'.
Proof.
  intros HP. destruct l as [|x l].
  - apply Permutation_nil in HP. now subst.
  - destruct (np_max_nonempty (x :: l)) as [m Hm]; [discriminate|].
    rewrite Hm. symmetry. apply np_max_spec. apply np_max_spec in Hm as [Hin Hall].
    split.
    + now apply (Permutation_in _ HP).
    + now apply (Permutation_Forall HP).
Qed.

Lemma np_max_scale (a : R) (l : list R) :
  0 <= a -> np.max (map (Rmult a) l) = fmap (Rmult a) (np.max l).
Proof.
  intros Ha. destruct l as [|x l]; simpl; [reflexivity|]. f_equal.
  revert x. induction l as [|y l IH]; intros x; simpl; [reflexivity|].
  rewrite RmaxRmult by assumption. apply IH.
Qed.

Lemma tabulate_nth {A : Type} (p : list A) (d : A) :
  map (fun k => nth k p d) (seq 0 (length p)) = p.
Proof.
  induction p as [|a p IH]; simpl; [reflexivity|]. f_equal.
  rewrite <- seq_shift, map_map. exact IH.
Qed.

Lemma length_scale (c : C) (w : list C) : length (scale c w) = length w.
Proof. apply length_map. Qed.

Lemma conj_mul_self (c : C) :
  (np.conj c * c)%C = RtoC (np.abs c * np.abs c).
Proof.
  unfold np.abs. rewrite sqrt_sqrt by nra.
  destruct c as [a b]. apply C_eq; simpl; ring.
Qed.

Lemma conj_mul (a b : C) : np.conj (a * b) = (np.conj a * np.conj b)%C.
Proof. destruct a, b. apply C_eq; simpl; ring. Qed.

Lemma Re_RtoC_mul (a : R) (z : C) : Re (RtoC a * z) = a * Re z.
Proof. destruct z. simpl. ring. Qed.

Lemma quad_form_scale (c : C) (w : list C) (Q : nat -> nat -> C) :
  quad_form (scale c w) Q = (RtoC (np.abs c * np.abs c) * quad_form w Q)%C.
Proof.
  unfold quad_form. rewrite length_scale, <- Csum_map_mul_l.
  apply Csum_map_ext. intros i _. rewrite <- Csum_map_mul_l.
  apply Csum_map_ext. intros j _.
  rewrite !nth_scale, conj_mul, <- conj_mul_self.
  generalize (np.conj c), (np.conj (nth i w C0)), (nth j w C0), (Q i j).
  Cring.
Qed.

Lemma quad_form_transpose (w : list C) (Q : nat -> nat -> C) :
  quad_form w (transpose Q) = quad_form (map np.conj w) Q.
Proof.
  unfold quad_form, transpose. rewrite length_map, Csum_swap.
  apply Csum_map_ext. intros j _. apply Csum_map_ext. intros i _.
  rewrite !nth_map_conj.
  generalize (nth i w C0), (nth j w C0), (Q j i). Cring.
Qed.

Lemma max_SAR_cases (weights : list C) (vop : array3) :
  (length weights = dim0 vop /\ length weights = dim1 vop) \/
  (length weights <> dim0 vop \/ length weights <> dim1 vop).
Proof.
  destruct (Nat.eq_dec (length weights) (dim0 vop));
    destruct (Nat.eq_dec (length weights) (dim1 vop)); auto.
Qed.

(** [max_SAR] returns the value of one matrix of the set, and none of the
    set has a larger one: when the sizes fit, [max_SAR weights vop = s]
    exactly when [s] is [Re (w* Q^T w)] for a matrix [Q] of the set and
    every matrix of the set has [Re (w* Q^T w) <= s]. *)
Theorem max_SAR_attained (weights : list C) (vop : array3) (s : R) :
  length weights = dim0 vop -> length weights = dim1 vop ->
  (max_SAR weights vop = Ok s <->
   (exists k, (k < dim2 vop)%nat /\
      s = Re (quad_form weights (transpose (vop_matrix vop k)))) /\
   (forall k, (k < dim2 vop)%nat ->
      Re (quad_form weights (transpose (vop_matrix vop k))) <= s)).
Proof.
  intros H0 H1. rewrite max_SAR_transposed by assumption.
  rewrite np_max_spec, in_map_iff, Forall_map, Forall_forall.
  split; intros [Hin Hall]; split.
  - destruct Hin as [k [Hk Hin]]. apply in_seq in Hin. exists k. split; [lia | auto].
  - intros k Hk. apply Hall. apply in_seq. lia.
  - destruct Hin as [k [Hk ->]]. exists k. split; [reflexivity | apply in_seq; lia].
  - intros k Hk. apply Hall. apply in_seq in Hk. lia.
Qed.

Lemma max_SAR_attained_witness :
  length w_1i = dim0 vop_1 /\ length w_1i = dim1 vop_1 /\
  (max_SAR w_1i vop_1 = Ok 4 <->
   (exists k, (k < dim2 vop_1)%nat /\
      4 = Re (quad_form w_1i (transpose (vop_matrix vop_1 k)))) /\
   (forall k, (k < dim2 vop_1)%nat ->
      Re (quad_form w_1i (transpose (vop_matrix vop_1 k))) <= 4)).
Proof.
  split; [reflexivity | split; [reflexivity|]].
  apply (max_SAR_attained w_1i vop_1 4); reflexivity.
Defined.

Lemma max_SAR_conj_witness :
  length w_1i = dim0 vop_1 /\ length w_1i = dim1 vop_1 /\
  max_SAR w_1i vop_1 = max_SAR_spec (map np.conj w_1i) vop_1.
Proof.
  split; [reflexivity | split; [reflexivity|]].
  apply (max_SAR_conj w_1i vop_1); reflexivity.
Defined.

Lemma vop_sym_values :
  map (fun k => Re (quad_form w_1i (vop_matrix vop_sym k))) (seq 0 3) = [2; 5; 1]
  /\ map (fun k => Re (quad_form w_1i (transpose (vop_matrix vop_sym k))))
         (seq 0 3) = [2; 5; 1].
Proof.
  split; unfold quad_form, transpose, vop_matrix; simpl;
    repeat (f_equal; try lra).
Qed.

Lemma np_max_2_5_1 : np.max [2; 5; 1] = Ok 5.
Proof.
  simpl. f_equal. rewrite (Rmax_right 2 5) by lra. apply Rmax_left. lra.
Qed.

(** On the weights (1, i) the three real symmetric matrices of [vop_sym]
    have the values 2, 5 and 1; [max_SAR] returns 5, as the spec asks. *)
Lemma max_SAR_symmetric_witness :
  length w_1i = dim0 vop_sym /\ length w_1i = dim1 vop_sym /\
  (forall i j k, get3 vop_sym i j k = get3 vop_sym j i k) /\
  max_SAR w_1i vop_sym = max_SAR_spec w_1i vop_sym /\
  max_SAR_spec w_1i vop_sym = Ok 5.
Proof.
  assert (Hsym : forall i j k, get3 vop_sym i j k = get3 vop_sym j i k).
  { intros i j k. simpl. rewrite (Nat.eqb_sym i j).
    destruct k as [|[|k]]; [reflexivity | |];
      destruct i as [|[|i]], j as [|[|j]]; reflexivity. }
  split; [reflexivity | split; [reflexivity | split; [exact Hsym | split]]].
  - apply (max_SAR_symmetric w_1i vop_sym); [reflexivity | reflexivity | exact Hsym].
  - unfold max_SAR_spec. change (dim2 vop_sym) with 3%nat.
    rewrite (proj1 vop_sym_values). apply np_max_2_5_1.
Defined.

Lemma max_SAR_scale_factor (c : C) (weights : list C) (vop : array3) :
  max_SAR (scale c weights) vop =
  fmap (Rmult (np.abs c * np.abs c)) (max_SAR weights vop).
Proof.
  destruct (max_SAR_cases weights vop) as [[H0 H1] | H].
  - rewrite !max_SAR_transposed by (rewrite ?length_scale; assumption).
    rewrite <- np_max_scale by (pose proof (abs_nonneg c); nra).
    rewrite map_map. f_equal. apply map_ext. intros k.
    now rewrite quad_form_scale, Re_RtoC_mul.
  - rewrite !max_SAR_length_mismatch by (rewrite ?length_scale; assumption).
    reflexivity.
Qed.

(** Scaling every weight by a complex number [c] scales [max_SAR] by
    [|c|^2], and raises when the unscaled call raises; in particular a
    global phase [e^(i theta)] leaves [max_SAR] unchanged. *)
Theorem max_SAR_scale (c : C) (weights : list C) (vop : array3) (theta : R) :
  max_SAR (scale c weights) vop =
  fmap (Rmult (np.abs c * np.abs c)) (max_SAR weights vop)
  /\ max_SAR (rotate theta weights) vop = max_SAR weights vop.
Proof.
  split; [apply max_SAR_scale_factor|].
  rewrite rotate_scale, max_SAR_scale_factor, abs_exp_1j.
  destruct (max_SAR weights vop); simpl; [|reflexivity].
  f_equal. ring.
Qed.

(** [max_SAR] does not depend on the order of the matrices of the set. *)
Theorem max_SAR_order_independent (weights : list C) (vop : array3)
    (p : list nat) :
  Permutation p (seq 0 (dim2 vop)) ->
  max_SAR weights (reorder_vop vop p) = max_SAR weights vop.
Proof.
  intros HP. destruct (max_SAR_cases weights vop) as [[H0 H1] | H].
  - rewrite !max_SAR_transposed by assumption.
    cbn [dim2 reorder_vop].
    set (F := fun q => Re (quad_form weights (transpose (vop_matrix vop q)))).
    assert (E : map (fun k => Re (quad_form weights
                       (transpose (vop_matrix (reorder_vop vop p) k))))
                    (seq 0 (length p))
                = map F (map (fun k => nth k p 0%nat) (seq 0 (length p))))
      by (rewrite map_map; reflexivity).
    rewrite E, tabulate_nth.
    apply np_max_Permutation. now apply Permutation_map.
  - rewrite !max_SAR_length_mismatch by assumption. reflexivity.
Qed.

(** The matrices of [vop_sym], of values 2, 5 and 1 on the weights (1, i),
    taken in the order third, first, second have the values 1, 2 and 5;
    [max_SAR] returns 5 in both orders. *)
Lemma max_SAR_order_independent_witness :
  Permutation [2; 0; 1]%nat (seq 0 (dim2 vop_sym)) /\
  map (fun k => Re (quad_form w_1i
                      (transpose (vop_matrix (reorder_vop vop_sym [2; 0; 1]%nat) k))))
      (seq 0 3) = [1; 2; 5] /\
  max_SAR w_1i (reorder_vop vop_sym [2; 0; 1]%nat) = max_SAR w_1i vop_sym /\
  max_SAR w_1i vop_sym = Ok 5.
Proof.
  assert (HP : Permutation [2; 0; 1]%nat (seq 0 (dim2 vop_sym))).
  { simpl. apply (perm_trans (perm_swap 0%nat 2%nat [1%nat])).
    apply perm_skip, perm_swap. }
  split; [exact HP | split; [|split]].
  - unfold quad_form, transpose, vop_matrix; simpl; repeat (f_equal; try lra).
  - exact (max_SAR_order_independent w_1i vop_sym [2; 0; 1]%nat HP).
  - rewrite max_SAR_transposed by reflexivity.
    change (dim2 vop_sym) with 3%nat.
    rewrite (proj2 vop_sym_values). apply np_max_2_5_1.
Defined.

(** On a set of matrices whose quadratic forms have a non-negative real
    part, a value [max_SAR] returns is never negative. *)
Theorem max_SAR_nonneg (weights : list C) (vop : array3) (s : R) :
  vop_nonneg vop -> max_SAR weights vop = Ok s -> 0 <= s.
Proof.
  intros Hpsd Hs. destruct (max_SAR_cases weights vop) as [[H0 H1] | H].
  - rewrite max_SAR_transposed in Hs by assumption.
    apply np_max_spec in Hs as [Hin _].
    apply in_map_iff in Hin as [k [<- Hk]]. apply in_seq in Hk.
    rewrite quad_form_transpose. apply Hpsd; [lia|].
    now rewrite length_map.
  - rewrite max_SAR_length_mismatch in Hs by assumption. discriminate.
Qed.

Lemma max_SAR_nonneg_witness :
  vop_nonneg vop_1 /\ max_SAR w_1i vop_1 = Ok 4 /\ 0 <= 4.
Proof.
  assert (Hpsd : vop_nonneg vop_1).
  { intros k w Hk Hw. simpl in Hk, Hw.
    destruct w as [|[a b] [|[c d] [|? ?]]]; try discriminate.
    destruct k as [|k]; [|lia].
    unfold quad_form, vop_matrix. simpl.
    match goal with
    | |- 0 <= ?e =>
        replace e with ((a - d) * (a - d) + (b + c) * (b + c)) by ring
    end.
    pose proof (Rle_0_sqr (a - d)). pose proof (Rle_0_sqr (b + c)).
    unfold Rsqr in *. lra. }
  assert (Hs : max_SAR w_1i vop_1 = Ok 4).
  { unfold max_SAR, np.matmul_1d_3d, np.matmul_2d_1d, np.max, np.dot; simpl.
    f_equal. lra. }
  split; [exact Hpsd | split; [exact Hs|]].
  exact (max_SAR_nonneg w_1i vop_1 4 Hpsd Hs).
Defined.

Lemma length_linspace (start stop : R) (num : nat) :
  length (linspace start stop num) = num.
Proof. unfold linspace. now rewrite length_map, length_seq. Qed.

Lemma length_weights_CP (n : nat) : length (weights_CP n) = n.
Proof. unfold weights_CP. now rewrite length_map, length_linspace. Qed.

Lemma max_SAR_empty_set (weights : list C) (vop : array3) :
  dim2 vop = 0%nat -> max_SAR weights vop = Raise ValueError.
Proof.
  intros HK. destruct (max_SAR_cases weights vop) as [[H0 H1] | H].
  - rewrite max_SAR_transposed by assumption. now rewrite HK.
  - now apply max_SAR_length_mismatch.
Qed.

Section SARConstrained.

Variable vector_to_complex : list R -> list C.
Variable complex_to_vector : list C -> list R.
Variable minimize :
  (list R -> result float) -> list R -> option (list R -> result R) ->
  result (list R).

(** The SAR-constrained cell raises [ValueError] before the solver is
    called, whatever the solver, when the VOP set is empty or when its
    matrices do not have the size of the element count: the limit
    [SAR_limit = max_SAR(weights_CP, vop)] cannot be computed. *)
Theorem weights_SAR_invalid_vop (b1_maps : array3) (mask : mask2)
    (vop : array3) (weights_PO : list C) :
  dim2 vop = 0%nat \/ dim0 vop <> n_Tx b1_maps \/ dim1 vop <> n_Tx b1_maps ->
  weights_SAR vector_to_complex complex_to_vector minimize
              b1_maps mask vop weights_PO = Raise ValueError.
Proof.
  intros H. unfold weights_SAR.
  assert (E : max_SAR (weights_CP (n_Tx b1_maps)) vop = Raise ValueError).
  { destruct H as [H | H].
    - now apply max_SAR_empty_set.
    - apply max_SAR_length_mismatch. rewrite length_weights_CP.
      destruct H; [left | right]; congruence. }
  now rewrite E.
Qed.

End SARConstrained.

Lemma weights_SAR_invalid_vop_witness :
  (dim2 b1_single = 0%nat \/ dim0 b1_single <> n_Tx b1_small
   \/ dim1 b1_single <> n_Tx b1_small) /\
  weights_SAR Encoding.vector_to_complex Encoding.complex_to_vector minimize_x0
              b1_small mask_all b1_single [C1; C1] = Raise ValueError.
Proof.
  assert (H : dim2 b1_single = 0%nat \/ dim0 b1_single <> n_Tx b1_small
              \/ dim1 b1_single <> n_Tx b1_small) by (right; left; simpl; lia).
  split; [exact H|].
  exact (weights_SAR_invalid_vop Encoding.vector_to_complex
           Encoding.complex_to_vector minimize_x0 b1_small mask_all
           b1_single [C1; C1] H).
Defined.

(** ** The reported CoV under a scaling of the weights *)

Lemma map_flat_map_comm {A B D : Type} (f : B -> D) (g : A -> list B)
    (l : list A) :
  map f (flat_map g l) = flat_map (fun a => map f (g a)) l.
Proof.
  induction l as [|a l IH]; simpl; [reflexivity|].
  now rewrite map_app, IH.
Qed.

Lemma get2_scale2 (c : C) (a : array2) (i j : nat) :
  get2 (scale2 c a) i j = (c * get2 a i j)%C.
Proof.
  unfold get2, scale2. cbn [rows2].
  change (@nil C) with (map (Cmul c) []) at 1. rewrite map_nth.
  rewrite <- (Cmul_0_r c) at 1. apply (map_nth (Cmul c)).
Qed.

Lemma combined_field_scale2 (b1_maps : array3) (c : C) (w : list C) :
  combined_field b1_maps (scale c w) = fmap (scale2 c) (combined_field b1_maps w).
Proof.
  unfold combined_field, np.matmul_3d_1d. rewrite length_scale.
  destruct (Nat.eqb (dim2 b1_maps) (length w)); [|reflexivity].
  simpl. unfold scale2. cbn [ncols2 rows2]. do 2 f_equal.
  rewrite map_map. apply map_ext. intros i.
  rewrite map_map. apply map_ext. intros j.
  rewrite <- Csum_map_mul_l. apply Csum_map_ext. intros k _.
  rewrite nth_scale. Cring.
Qed.

Lemma select2_scale2 (c : C) (a : array2) (m m' : mask2) :
  (forall i j, m' i j = m i j) ->
  select2 (scale2 c a) m' = map (Cmul c) (select2 a m).
Proof.
  intros Hm. unfold select2. rewrite map_flat_map_comm.
  change (length (rows2 (scale2 c a))) with (length (map (map (Cmul c)) (rows2 a))).
  rewrite length_map. apply flat_map_ext_in. intros i _.
  rewrite map_flat_map_comm. apply flat_map_ext_in. intros j _.
  rewrite Hm. destruct (m i j); [|reflexivity].
  simpl. f_equal. apply get2_scale2.
Qed.

Lemma Cnonzero_mul (c z : C) : c <> C0 -> Cnonzero (c * z) = Cnonzero z.
Proof.
  intros Hc. destruct (Cnonzero z) eqn:E.
  - apply Cnonzero_true. apply Cnonzero_true in E. intros H.
    apply abs_0_iff in H. rewrite abs_mul in H.
    apply Rmult_integral in H. destruct H as [H | H].
    + now apply Hc, abs_0_iff.
    + now apply E, abs_0_iff.
  - apply Cnonzero_false in E. subst z. rewrite Cmul_0_r. apply Cnonzero_C0.
Qed.

Lemma map_abs_scale (c : C) (l : list C) :
  map np.abs (map (Cmul c) l) = map (Rmult (np.abs c)) (map np.abs l).
Proof.
  rewrite !map_map. apply map_ext. intros z. apply abs_mul.
Qed.

Lemma CoV_scale (b1_maps : array3) (mask : mask2) (c : C) (w : list C) :
  c <> C0 -> CoV b1_maps mask (scale c w) = CoV b1_maps mask w.
Proof.
  intros Hc. unfold CoV. rewrite combined_field_scale2.
  destruct (combined_field b1_maps w) as [a | e]; [|reflexivity].
  simpl. rewrite (select2_scale2 c a mask mask) by reflexivity.
  now rewrite map_abs_scale, variation_scale by now apply abs_pos.
Qed.

Lemma CoV_nonzero_scale (b1_maps : array3) (c : C) (w : list C) :
  c <> C0 -> CoV_nonzero b1_maps (scale c w) = CoV_nonzero b1_maps w.
Proof.
  intros Hc. unfold CoV_nonzero. rewrite combined_field_scale2.
  destruct (combined_field b1_maps w) as [a | e]; [|reflexivity].
  simpl. unfold nonzero_entries.
  rewrite (select2_scale2 c a
             (fun i j => Cnonzero (nth j (nth i (rows2 a) []) C0))).
  - now rewrite map_abs_scale, variation_scale by now apply abs_pos.
  - intros i j. fold (get2 (scale2 c a) i j). rewrite get2_scale2.
    now apply Cnonzero_mul.
Qed.

Lemma RtoC_nonzero (t : R) : t <> 0 -> RtoC t <> C0.
Proof. intros Ht E. apply Ht. now apply (f_equal Re) in E. Qed.

(** A SAR limit can always be met without loss of homogeneity: for every
    weight vector on which [max_SAR] returns and every positive limit there
    is a positive real factor by which the scaled weights have [max_SAR] at
    most the limit and the same CoV over every mask. *)
Theorem SAR_limit_met_by_scaling (b1_maps : array3) (vop : array3)
    (w : list C) (S limit : R) :
  0 < limit ->
  max_SAR w vop = Ok S ->
  exists t, 0 < t /\
    (exists S', max_SAR (scale (RtoC t) w) vop = Ok S' /\ S' <= limit) /\
    (forall mask, CoV b1_maps mask (scale (RtoC t) w) = CoV b1_maps mask w).
Proof.
  intros Hl HS.
  assert (Hscale : forall t, 0 < t ->
            max_SAR (scale (RtoC t) w) vop = Ok (t * t * S)).
  { intros t Ht. rewrite max_SAR_scale_factor, HS, abs_RtoC by lra. reflexivity. }
  destruct (Rle_dec S limit) as [Hle | Hgt].
  - exists 1. split; [lra | split].
    + exists (1 * 1 * S). split; [apply Hscale; lra | lra].
    + intros mask. apply CoV_scale, RtoC_nonzero. lra.
  - assert (HSpos : 0 < S) by lra.
    assert (Hq : 0 < limit / S) by (apply Rdiv_lt_0_compat; assumption).
    exists (sqrt (limit / S)).
    assert (Ht : 0 < sqrt (limit / S)) by now apply sqrt_lt_R0.
    split; [assumption | split].
    + exists (sqrt (limit / S) * sqrt (limit / S) * S).
      split; [now apply Hscale|].
      rewrite sqrt_sqrt by lra. right. field. lra.
    + intros mask. apply CoV_scale, RtoC_nonzero. lra.
Qed.

Lemma SAR_limit_met_by_scaling_witness :
  0 < 1 /\ max_SAR w_1i vop_1 = Ok 4 /\
  exists t, 0 < t /\
    (exists S', max_SAR (scale (RtoC t) w_1i) vop_1 = Ok S' /\ S' <= 1) /\
    (forall mask, CoV b1_small mask (scale (RtoC t) w_1i) = CoV b1_small mask w_1i).
Proof.
  assert (Hs : max_SAR w_1i vop_1 = Ok 4).
  { unfold max_SAR, np.matmul_1d_3d, np.matmul_2d_1d, np.max, np.dot; simpl.
    f_equal. lra. }
  split; [lra | split; [exact Hs|]].
  apply (SAR_limit_met_by_scaling b1_small vop_1 w_1i 4 1); [lra | exact Hs].
Defined.

(** ** When the CoV is zero, and when it is a number *)

Lemma Forall_sq_nonneg (l : list R) (m : R) :
  Forall (fun x => 0 <= x) (map (fun x => (x - m) * (x - m)) l).
Proof.
  apply Forall_map, Forall_forall. intros y _.
  pose proof (Rle_0_sqr (y - m)) as H. unfold Rsqr in H. exact H.
Qed.

Lemma Rsum_sq_zero (l : list R) (m : R) :
  Rsum (map (fun x => (x - m) * (x - m)) l) = 0 -> Forall (fun x => x = m) l.
Proof.
  induction l as [|x l IH]; simpl; intros H; constructor.
  - pose proof (Rsum_nonneg _ (Forall_sq_nonneg l m)).
    pose proof (Rle_0_sqr (x - m)) as Hx. unfold Rsqr in Hx.
    assert (E : (x - m) * (x - m) = 0) by lra.
    apply Rmult_integral in E. lra.
  - apply IH.
    pose proof (Rsum_nonneg _ (Forall_sq_nonneg l m)).
    pose proof (Rle_0_sqr (x - m)) as Hx. unfold Rsqr in Hx. lra.
Qed.

Lemma Rsum_const (a : R) (l : list R) :
  Forall (fun x => x = a) l -> Rsum l = INR (length l) * a.
Proof.
  induction 1 as [|x l -> _ IH].
  - simpl. ring.
  - cbn [Rsum]. rewrite IH. cbn [length]. rewrite S_INR. ring.
Qed.

Lemma INR_length_pos {A : Type} (l : list A) : l <> [] -> 0 < INR (length l).
Proof.
  destruct l; [congruence | intros _]. apply lt_0_INR. simpl. lia.
Qed.

Lemma mean_const (a : R) (l : list R) :
  l <> [] -> Forall (fun x => x = a) l -> mean l = a.
Proof.
  intros Hl H. unfold mean. rewrite (Rsum_const a) by assumption.
  field. apply Rgt_not_eq, INR_length_pos. assumption.
Qed.

(** [variation] is zero exactly on a non-empty array of equal values other
    than zero. *)
Lemma variation_zero_iff (l : list R) :
  variation l = Some 0 <->
  exists a, a <> 0 /\ l <> [] /\ Forall (fun x => x = a) l.
Proof.
  split.
  - unfold variation. destruct l as [|x l]; [discriminate|].
    set (l' := x :: l).
    destruct (Req_dec_T (mean l') 0) as [E | E]; [discriminate|].
    intros [= H]. exists (mean l'). split; [assumption | split; [discriminate|]].
    assert (Hstd : std l' = 0).
    { apply (Rmult_eq_compat_r (mean l')) in H. field_simplify in H; lra. }
    unfold std in Hstd. apply sqrt_eq_0 in Hstd.
    + unfold mean at 1 in Hstd. rewrite length_map in Hstd.
      apply Rsum_sq_zero.
      apply (Rmult_eq_compat_r (INR (length l'))) in Hstd.
      assert (0 < INR (length l')) by (apply INR_length_pos; discriminate).
      field_simplify in Hstd; lra.
    + apply mean_nonneg, Forall_sq_nonneg.
  - intros [a [Ha [Hl Hall]]]. unfold variation.
    destruct l as [|x l]; [congruence|].
    set (l' := x :: l) in *.
    rewrite (mean_const a l') by assumption.
    destruct (Req_dec_T a 0) as [E | _]; [contradiction|].
    f_equal. unfold std. rewrite (mean_const a l') by assumption.
    rewrite (mean_const 0).
    + rewrite sqrt_0. field. assumption.
    + intros E. apply map_eq_nil in E. congruence.
    + apply Forall_map. eapply Forall_impl; [|exact Hall].
      intros y ->. ring.
Qed.

Lemma Forall_abs_nonneg (l : list C) : Forall (fun x => 0 <= x) (map np.abs l).
Proof. apply Forall_map, Forall_forall. intros z _. apply abs_nonneg. Qed.

(** The CoV the notebooks report is never negative, and it is zero exactly
    when the mask selects at least one voxel and the magnitude of the
    combined field is the same value, other than zero, at every voxel of the
    mask. *)
Theorem CoV_nonneg_zero_iff_uniform (b1_maps : array3) (mask : mask2)
    (weights : list C) :
  (forall v, CoV b1_maps mask weights = Ok (Some v) -> 0 <= v)
  /\ (CoV b1_maps mask weights = Ok (Some 0) <->
      exists b1 a,
        combined_field b1_maps weights = Ok b1 /\ a <> 0 /\
        select2 b1 mask <> [] /\
        Forall (fun z => np.abs z = a) (select2 b1 mask)).
Proof.
  unfold CoV. destruct (combined_field b1_maps weights) as [b1 | e]; simpl.
  - split.
    + intros v [= H]. eapply variation_nonneg; [apply Forall_abs_nonneg | exact H].
    + split.
      * intros [= H]. apply variation_zero_iff in H as [a [Ha [Hl Hall]]].
        exists b1, a. repeat split; try assumption.
        -- intros E. apply Hl. now rewrite E.
        -- now apply Forall_map in Hall.
      * intros [b1' [a [[= <-] [Ha [Hl Hall]]]]]. do 2 f_equal.
        apply variation_zero_iff. exists a. repeat split; try assumption.
        -- intros E. apply map_eq_nil in E. contradiction.
        -- now apply Forall_map.
  - split; [discriminate|]. split; [discriminate|].
    intros [b1 [a [H _]]]. discriminate.
Qed.

(** ** The CoV over the nonzero field of the CP-mode notebook *)

Lemma flat_map_nil_iff {A B : Type} (f : A -> list B) (l : list A) :
  flat_map f l = [] <-> forall a, In a l -> f a = [].
Proof.
  induction l as [|a l IH]; simpl.
  - split; [intros _ b [] | reflexivity].
  - split.
    + intros H. apply app_eq_nil in H as [H1 H2].
      intros b [<- | Hb]; [assumption | now apply IH].
    + intros H. rewrite (H a) by now left. apply IH. intros b Hb. apply H. now right.
Qed.

Lemma nonzero_entries_nil_iff (a : array2) :
  nonzero_entries a = [] <->
  forall i j, (i < length (rows2 a))%nat -> (j < ncols2 a)%nat -> get2 a i j = C0.
Proof.
  unfold nonzero_entries, select2. rewrite flat_map_nil_iff. split.
  - intros H i j Hi Hj.
    specialize (H i (proj2 (in_seq _ _ _) (conj (Nat.le_0_l i) Hi))).
    rewrite flat_map_nil_iff in H.
    specialize (H j (proj2 (in_seq _ _ _) (conj (Nat.le_0_l j) Hj))).
    fold (get2 a i j) in H.
    destruct (Cnonzero (get2 a i j)) eqn:E; [discriminate|].
    now apply Cnonzero_false.
  - intros H i Hi. apply in_seq in Hi. apply flat_map_nil_iff.
    intros j Hj. apply in_seq in Hj. fold (get2 a i j).
    rewrite (H i j) by lia. now rewrite Cnonzero_C0.
Qed.

Lemma nonzero_entries_nonzero (a : array2) :
  Forall (fun z => z <> C0) (nonzero_entries a).
Proof.
  unfold nonzero_entries, select2. apply Forall_flat_map, Forall_forall.
  intros i _. apply Forall_flat_map, Forall_forall. intros j _.
  fold (get2 a i j). destruct (Cnonzero (get2 a i j)) eqn:E; constructor.
  - now apply Cnonzero_true.
  - constructor.
Qed.

Lemma Rsum_pos (l : list R) : l <> [] -> Forall (fun x => 0 < x) l -> 0 < Rsum l.
Proof.
  intros Hl H. induction H as [|x l Hx Hall IH]; [congruence|].
  simpl. destruct l as [|y l].
  - simpl. lra.
  - assert (0 < Rsum (y :: l)) by (apply IH; discriminate). lra.
Qed.

(** The CoV the CP-mode notebook prints, [variation(np.abs(b1[b1 != 0]))],
    is not a number exactly when the combined field is zero at every voxel;
    otherwise it is a finite number that is not negative. *)
Theorem CoV_nonzero_finite (b1_maps : array3) (weights : list C) (b1 : array2) :
  combined_field b1_maps weights = Ok b1 ->
  ((forall i j, (i < length (rows2 b1))%nat -> (j < ncols2 b1)%nat ->
      get2 b1 i j = C0) ->
   CoV_nonzero b1_maps weights = Ok None)
  /\ (nonzero_entries b1 <> [] ->
      exists v, CoV_nonzero b1_maps weights = Ok (Some v) /\ 0 <= v).
Proof.
  intros Hb. unfold CoV_nonzero. rewrite Hb. simpl. split.
  - intros H. apply nonzero_entries_nil_iff in H. now rewrite H.
  - intros Hne. set (l := map np.abs (nonzero_entries b1)).
    assert (Hl : l <> []) by (intros E; apply map_eq_nil in E; contradiction).
    assert (Hpos : Forall (fun x => 0 < x) l).
    { apply Forall_map. eapply Forall_impl; [|apply nonzero_entries_nonzero].
      intros z Hz. now apply abs_pos. }
    assert (Hm : 0 < mean l).
    { unfold mean. apply Rdiv_lt_0_compat;
        [now apply Rsum_pos | now apply INR_length_pos]. }
    unfold variation. destruct l as [|x l'] eqn:El; [congruence|].
    destruct (Req_dec_T (mean (x :: l')) 0) as [E | _]; [lra|].
    eexists. split; [reflexivity|].
    apply Rmult_le_pos; [apply std_nonneg|].
    left. now apply Rinv_0_lt_compat.
Qed.

Lemma CoV_nonzero_finite_witness :
  combined_field b1_small [C1; C1] = Ok (mkArray2 2 [[RtoC 3; RtoC 1]]) /\
  nonzero_entries (mkArray2 2 [[RtoC 3; RtoC 1]]) <> [] /\
  exists v, CoV_nonzero b1_small [C1; C1] = Ok (Some v) /\ 0 <= v.
Proof.
  assert (Hne : nonzero_entries (mkArray2 2 [[RtoC 3; RtoC 1]]) <> []).
  { unfold nonzero_entries, select2. simpl.
    rewrite !Cnonzero_RtoC by lra. discriminate. }
  split; [apply combined_field_b1_small | split; [exact Hne|]].
  exact (proj2 (CoV_nonzero_finite b1_small [C1; C1] _ combined_field_b1_small) Hne).
Defined.

Lemma CoV_nonneg_zero_iff_uniform_witness :
  CoV b1_small mask_all [C1; C1] = Ok (Some (1 / 2)) /\ 0 <= 1 / 2.
Proof.
  assert (H : CoV b1_small mask_all [C1; C1] = Ok (Some (1 / 2))).
  { unfold CoV. rewrite combined_field_b1_small. simpl.
    rewrite !abs_RtoC by lra. now rewrite variation_3_1. }
  split; [exact H|].
  exact (proj1 (CoV_nonneg_zero_iff_uniform b1_small mask_all [C1; C1]) _ H).
Defined.

(** ** Normalized weights *)

Lemma map2_repeat {A B D : Type} (f : A -> B -> D) (a : A) (l : list B) :
  Encoding.map2 f (repeat a (length l)) l = map (f a) l.
Proof.
  induction l as [|b l IH]; simpl; [reflexivity|]. now rewrite IH.
Qed.

Lemma weights_sTx_normalized_scale (n : nat) :
  weights_sTx_normalized n = scale (RtoC (/ sqrt (INR n))) (np.ones n).
Proof.
  unfold weights_sTx_normalized, scale. apply map_ext. intros z.
  destruct z as [a b]. apply C_eq; simpl; unfold Rdiv; ring.
Qed.

Lemma weights_CP_normalized_scale (n : nat) :
  weights_CP_normalized n = scale (RtoC (/ sqrt (INR n))) (weights_CP n).
Proof.
  unfold weights_CP_normalized, weights_sTx_normalized, np.ones, phases, weights_CP.
  rewrite map_repeat.
  set (l := map np.exp_1j (linspace 0 (2 * (PI - PI / INR n)) n)).
  assert (Hl : length l = n) by (unfold l; now rewrite length_map, length_linspace).
  rewrite <- Hl at 2. rewrite map2_repeat. unfold scale. apply map_ext.
  intros z. destruct z as [a b]. apply C_eq; simpl; unfold Rdiv; ring.
Qed.

Lemma inv_sqrt_INR_nonzero (n : nat) : (0 < n)%nat -> RtoC (/ sqrt (INR n)) <> C0.
Proof.
  intros Hn. apply RtoC_nonzero, Rgt_not_eq, Rinv_0_lt_compat, sqrt_lt_R0.
  now apply lt_0_INR.
Qed.

(** Dividing the weights by [np.sqrt(n_Tx)] changes none of the CoV values
    of the CP-mode notebook: the normalized single-pulse and CP weights of
    the wavelength loop give the CoV of [np.ones(n_Tx)] and of the CP
    weights of the first cell. *)
Theorem normalization_keeps_CoV (b1_maps : array3) (n : nat) :
  CoV_nonzero b1_maps (weights_sTx_normalized n) = CoV_nonzero b1_maps (np.ones n)
  /\ CoV_nonzero b1_maps (weights_CP_normalized n)
     = CoV_nonzero b1_maps (weights_CP n).
Proof.
  rewrite weights_sTx_normalized_scale, weights_CP_normalized_scale.
  destruct n as [|n].
  - split; reflexivity.
  - split; apply CoV_nonzero_scale, inv_sqrt_INR_nonzero; lia.
Qed.

Lemma Rsum_repeat_const (f : C -> R) (a : R) (l : list C) :
  Forall (fun z => f z = a) l -> Rsum (map f l) = INR (length l) * a.
Proof.
  intros H. rewrite (Rsum_const a), length_map; [reflexivity|].
  now apply Forall_map.
Qed.

Lemma unit_magnitude_ones (n : nat) : unit_magnitude (np.ones n).
Proof.
  unfold unit_magnitude, np.ones. apply Forall_forall. intros z Hz.
  apply repeat_spec in Hz. subst z. apply abs_RtoC. lra.
Qed.

Lemma power_of_normalized (n : nat) (w : list C) :
  (0 < n)%nat -> length w = n -> unit_magnitude w ->
  Rsum (map (fun z => np.abs z * np.abs z) (scale (RtoC (/ sqrt (INR n))) w)) = 1.
Proof.
  intros Hn Hl Hu.
  assert (Hs : 0 < sqrt (INR n)) by (apply sqrt_lt_R0; now apply lt_0_INR).
  rewrite (Rsum_repeat_const _ (/ INR n)).
  - rewrite length_scale, Hl. field. apply Rgt_not_eq. now apply lt_0_INR.
  - unfold scale. apply Forall_map. eapply Forall_impl; [|exact Hu].
    intros z Hz. cbv beta in *. rewrite abs_mul, Hz, abs_RtoC.
    + rewrite <- (sqrt_sqrt (INR n)) at 3 by (left; now apply lt_0_INR).
      field. lra.
    + left. now apply Rinv_0_lt_compat.
Qed.

(** The normalized weights have unit total power: for at least one
    element, the squared magnitudes of [np.ones(n_Tx)/np.sqrt(n_Tx)] sum to
    1, and so do those of the normalized CP weights. *)
Theorem normalized_weights_unit_power (n : nat) :
  (0 < n)%nat ->
  Rsum (map (fun z => np.abs z * np.abs z) (weights_sTx_normalized n)) = 1
  /\ Rsum (map (fun z => np.abs z * np.abs z) (weights_CP_normalized n)) = 1.
Proof.
  intros Hn.
  rewrite weights_sTx_normalized_scale, weights_CP_normalized_scale.
  split; apply power_of_normalized; try assumption.
  - apply repeat_length.
  - apply unit_magnitude_ones.
  - apply length_weights_CP.
  - apply weights_CP_unit.
Qed.

Lemma normalized_weights_unit_power_witness :
  (0 < 8)%nat /\
  Rsum (map (fun z => np.abs z * np.abs z) (weights_sTx_normalized 8)) = 1
  /\ Rsum (map (fun z => np.abs z * np.abs z) (weights_CP_normalized 8)) = 1.
Proof.
  split; [lia|]. apply (normalized_weights_unit_power 8). lia.
Defined.

(** ** The CP-mode weights *)

Lemma nth_weights_CP (n k : nat) :
  (k < n)%nat ->
  nth k (weights_CP n) C0 = np.exp_1j (2 * PI * INR k / INR n).
Proof.
  intros Hk.
  unfold weights_CP, linspace. rewrite map_map, nth_tabulate by assumption.
  f_equal. destruct (Nat.eq_dec n 1) as [-> | Hn].
  - assert (k = 0%nat) by lia. subst k. simpl. unfold Rdiv. ring.
  - assert (Hn1 : INR (n - 1) = INR n - 1) by (rewrite minus_INR; [reflexivity | lia]).
    assert (Hn2 : 2 <= INR n) by (apply (le_INR 2); lia).
    rewrite Hn1. field. lra.
Qed.

(** The CP-mode weights are [n_Tx] phases that advance by [2 pi / n_Tx]:
    entry [k] of [np.exp(1j * np.linspace(0, 2*(np.pi - np.pi/n_Tx), n_Tx))]
    is [e^(2 pi i k / n_Tx)]. *)
Theorem weights_CP_phases (n k : nat) :
  (k < n)%nat ->
  length (weights_CP n) = n /\
  nth k (weights_CP n) C0 = np.exp_1j (2 * PI * INR k / INR n).
Proof.
  intros Hk. split; [apply length_weights_CP | now apply nth_weights_CP].
Qed.

Lemma weights_CP_phases_witness :
  (3 < 8)%nat /\ length (weights_CP 8) = 8%nat /\
  nth 3 (weights_CP 8) C0 = np.exp_1j (2 * PI * INR 3 / INR 8).
Proof.
  split; [lia|]. apply (weights_CP_phases 8 3). lia.
Defined.

Lemma get2_combined_field (b1_maps : array3) (w : list C) (a : array2) (i j : nat) :
  combined_field b1_maps w = Ok a ->
  (i < dim0 b1_maps)%nat -> (j < dim1 b1_maps)%nat ->
  get2 a i j =
  Csum (map (fun k => (get3 b1_maps i j k * nth k w C0)%C) (seq 0 (n_Tx b1_maps))).
Proof.
  unfold combined_field, np.matmul_3d_1d, n_Tx.
  destruct (Nat.eqb (dim2 b1_maps) (length w)); [|discriminate].
  intros [= <-] Hi Hj. unfold get2. cbn [rows2].
  rewrite (nth_tabulate _ _ _ _ Hi). now rewrite (nth_tabulate _ _ _ _ Hj).
Qed.

Lemma combined_field_shape (b1_maps : array3) (w : list C) (a : array2) :
  combined_field b1_maps w = Ok a ->
  length (rows2 a) = dim0 b1_maps /\ ncols2 a = dim1 b1_maps.
Proof.
  unfold combined_field, np.matmul_3d_1d.
  destruct (Nat.eqb (dim2 b1_maps) (length w)); [|discriminate].
  intros [= <-]. cbn [rows2 ncols2]. now rewrite length_map, length_seq.
Qed.

Lemma combined_field_ok (b1_maps : array3) (w : list C) :
  length w = n_Tx b1_maps -> exists a, combined_field b1_maps w = Ok a.
Proof.
  unfold combined_field, np.matmul_3d_1d, n_Tx. intros ->.
  rewrite Nat.eqb_refl. eauto.
Qed.

(** ** Single-pulse excitation and the mask of the complex-shimming notebook *)

Lemma nth_repeat_lt {A : Type} (a d : A) (n k : nat) :
  (k < n)%nat -> nth k (repeat a n) d = a.
Proof.
  revert k. induction n as [|n IH]; intros k Hk; [lia|].
  destruct k as [|k]; simpl; [reflexivity | apply IH; lia].
Qed.

Lemma select2_ext (a : array2) (m m' : mask2) :
  (forall i j, (i < length (rows2 a))%nat -> (j < ncols2 a)%nat ->
     m i j = m' i j) ->
  select2 a m = select2 a m'.
Proof.
  intros H. unfold select2. apply flat_map_ext_in. intros i Hi.
  apply in_seq in Hi. apply flat_map_ext_in. intros j Hj. apply in_seq in Hj.
  rewrite H by lia. reflexivity.
Qed.

(** The single-pulse field [b1_maps @ np.ones(n_Tx)] is the sum of the
    per-element fields at each voxel, so the mask of the complex-shimming
    notebook, [b1_maps.sum(-1) != 0], is the set of voxels where the
    single-pulse field is not zero, and the CoV of the single-pulse field
    over that mask is the CoV the CP-mode notebook prints for it. *)
Theorem single_pulse_field_and_mask (b1_maps : array3) :
  exists b1_sTx,
    combined_field b1_maps (np.ones (n_Tx b1_maps)) = Ok b1_sTx /\
    (forall i j, (i < dim0 b1_maps)%nat -> (j < dim1 b1_maps)%nat ->
       get2 b1_sTx i j = Csum (map (get3 b1_maps i j) (seq 0 (n_Tx b1_maps)))
       /\ mask_sum b1_maps i j = Cnonzero (get2 b1_sTx i j)) /\
    CoV b1_maps (mask_sum b1_maps) (np.ones (n_Tx b1_maps))
    = CoV_nonzero b1_maps (np.ones (n_Tx b1_maps)).
Proof.
  destruct (combined_field_ok b1_maps (np.ones (n_Tx b1_maps))) as [a Ha];
    [apply repeat_length|].
  assert (Hget : forall i j, (i < dim0 b1_maps)%nat -> (j < dim1 b1_maps)%nat ->
            get2 a i j = Csum (map (get3 b1_maps i j) (seq 0 (n_Tx b1_maps)))).
  { intros i j Hi Hj. rewrite (get2_combined_field _ _ _ _ _ Ha Hi Hj).
    apply Csum_map_ext. intros k Hk. apply in_seq in Hk.
    unfold np.ones. rewrite nth_repeat_lt by lia. apply Cmul_1_r. }
  exists a. split; [assumption | split].
  - intros i j Hi Hj. split; [now apply Hget|].
    unfold mask_sum. fold (n_Tx b1_maps). now rewrite Hget.
  - unfold CoV, CoV_nonzero. rewrite Ha. simpl. do 3 f_equal.
    unfold nonzero_entries. apply select2_ext. intros i j Hi Hj.
    destruct (combined_field_shape _ _ _ Ha) as [Hr Hc].
    fold (get2 a i j). unfold mask_sum. fold (n_Tx b1_maps).
    rewrite Hget by lia. reflexivity.
Qed.

(** ** The objectives on a mask inside the support of the first element *)

Section ObjectivesOnSupport.

Variable vector_to_complex : list R -> list C.


End ObjectivesOnSupport.


(** ** The target-value cost *)

Section TargetValue.

Variable vector_to_complex : list R -> list C.

Lemma Rsum_sq_zero_iff (l : list R) (m : R) :
  Rsum (map (fun x => (x - m) * (x - m)) l) = 0 <-> Forall (fun x => x = m) l.
Proof.
  split; [apply Rsum_sq_zero|].
  intros H. apply Rsum_zero, Forall_map.
  eapply Forall_impl; [|exact H]. intros y ->. ring.
Qed.

(** The target-value cost is a finite number that is never negative, also
    on a ROI without rows, where it is zero; it is zero exactly when the
    magnitude of the combined field is the target at every row of the ROI. *)
Theorem cost_function_MLS_nonneg (roi : array2) (target : R) (x : list R)
    (s : list C) :
  np.matmul_2d_1d roi (vector_to_complex x) = Ok s ->
  exists v,
    cost_function_MLS vector_to_complex roi target x = Ok (Some v) /\
    0 <= v /\
    (v = 0 <-> Forall (fun z => np.abs z = target) s).
Proof.
  intros Hs. unfold cost_function_MLS. rewrite Hs. simpl.
  eexists. split; [reflexivity | split].
  - unfold np.sum. apply Rsum_nonneg, Forall_sq_nonneg.
  - unfold np.sum. rewrite Rsum_sq_zero_iff, Forall_map. reflexivity.
Qed.

(** On a mask that selects no voxel the target-value cost is 0 at every
    parameter vector that decodes to one weight per element, where the CoV
    cost is not a number. *)
Theorem cost_function_MLS_empty_mask (b1_maps : array3) (mask : mask2)
    (target : R) (x : list R) :
  (0 < n_Tx b1_maps)%nat ->
  selects_no_voxel b1_maps mask ->
  length (vector_to_complex x) = n_Tx b1_maps ->
  (roi <- b1_roi b1_maps mask (n_Tx b1_maps) ;;
   cost_function_MLS vector_to_complex roi target x) = Ok (Some 0).
Proof.
  intros Hn Hm Hx. rewrite b1_roi_no_voxel by assumption. simpl.
  unfold cost_function_MLS, np.matmul_2d_1d. cbn [ncols2 rows2].
  now rewrite Hx, Nat.eqb_refl.
Qed.

End TargetValue.

Lemma cost_function_MLS_nonneg_witness :
  np.matmul_2d_1d (mkArray2 1 [[C1]]) (Encoding.vector_to_complex [1; 0])
  = Ok [(C1 * C1 + C0)%C] /\
  exists v,
    cost_function_MLS Encoding.vector_to_complex (mkArray2 1 [[C1]]) 60 [1; 0]
    = Ok (Some v) /\ 0 <= v.
Proof.
  assert (H : np.matmul_2d_1d (mkArray2 1 [[C1]]) (Encoding.vector_to_complex [1; 0])
              = Ok [(C1 * C1 + C0)%C]).
  { rewrite vector_to_complex_one. reflexivity. }
  split; [exact H|].
  destruct (cost_function_MLS_nonneg Encoding.vector_to_complex
              (mkArray2 1 [[C1]]) 60 [1; 0] _ H) as [v [Hv [Hpos _]]].
  exists v. split; assumption.
Defined.

Lemma cost_function_MLS_empty_mask_witness :
  (0 < n_Tx b1_single)%nat /\ selects_no_voxel b1_single mask_none /\
  length (Encoding.vector_to_complex [1; 0]) = n_Tx b1_single /\
  (roi <- b1_roi b1_single mask_none (n_Tx b1_single) ;;
   cost_function_MLS Encoding.vector_to_complex roi 60 [1; 0]) = Ok (Some 0).
Proof.
  assert (H1 : (0 < n_Tx b1_single)%nat) by (simpl; lia).
  assert (H3 : length (Encoding.vector_to_complex [1; 0]) = n_Tx b1_single)
    by now rewrite vector_to_complex_one.
  split; [exact H1 | split; [apply selects_no_voxel_mask_none | split; [exact H3|]]].
  exact (cost_function_MLS_empty_mask Encoding.vector_to_complex
           b1_single mask_none 60 [1; 0] H1
           (selects_no_voxel_mask_none b1_single) H3).
Defined.

(** ** The reduced ROI *)

Lemma in_slice_reduced (n i : nat) :
  in_slice (Z.of_nat n / 2 - 10)%Z (Z.of_nat n / 2 + 10)%Z n i = true <->
  reduced_axis n i.
Proof.
  unfold in_slice, slice_bound, reduced_axis.
  change 2%Z with (Z.of_nat 2). rewrite <- Nat2Z.inj_div.
  pose proof (Nat.div_mod_eq n 2) as Hd.
  pose proof (Nat.mod_upper_bound n 2) as Hm.
  set (h := (n / 2)%nat) in *. set (r := (n mod 2)%nat) in *.
  rewrite andb_true_iff, Nat.leb_le, Nat.ltb_lt.
  destruct (Z.ltb_spec (Z.of_nat h - 10) 0);
    destruct (Z.ltb_spec (Z.of_nat h + 10) 0); lia.
Qed.

(** The reduced ROI is the 20 by 20 square around the middle of the map
    only when both spatial axes have at least 20 entries: on an axis of
    [n < 20] entries the negative start of the slice counts from the end,
    and the ROI covers the indices from [n + n//2 - 10] to [n - 1] (the
    whole axis when [n < 7]). *)
Theorem mask_reduced_extent (b1_maps : array3) (i j : nat) :
  mask_reduced b1_maps i j = true <->
  reduced_axis (dim0 b1_maps) i /\ reduced_axis (dim1 b1_maps) j.
Proof.
  unfold mask_reduced. cbv zeta.
  now rewrite andb_true_iff, !in_slice_reduced.
Qed.

(** A reduced ROI never reaches outside the map. *)
Lemma mask_reduced_in_range (b1_maps : array3) (i j : nat) :
  mask_reduced b1_maps i j = true ->
  (i < dim0 b1_maps)%nat /\ (j < dim1 b1_maps)%nat.
Proof.
  unfold mask_reduced. cbv zeta.
  rewrite andb_true_iff, !in_slice_reduced. intros [Hi Hj].
  unfold reduced_axis in *.
  pose proof (Nat.div_mod_eq (dim0 b1_maps) 2).
  pose proof (Nat.mod_upper_bound (dim0 b1_maps) 2).
  pose proof (Nat.div_mod_eq (dim1 b1_maps) 2).
  pose proof (Nat.mod_upper_bound (dim1 b1_maps) 2).
  lia.
Qed.

(** The voxels the notebook reports as outside the ROI, those where
    [mask - mask_reduced] is not zero, are the voxels that are in exactly
    one of the mask and the reduced ROI: a voxel of the reduced ROI that is
    not in the mask counts as outside the ROI. *)
Theorem outside_ROI_symmetric_difference (mask reduced : mask2) (i j : nat) :
  outside_ROI mask reduced i j = xorb (mask i j) (reduced i j)
  /\ (mask i j = false -> reduced i j = true ->
      outside_ROI mask reduced i j = true).
Proof.
  assert (E : outside_ROI mask reduced i j = xorb (mask i j) (reduced i j)).
  { unfold outside_ROI, b2r, Reqb.
    destruct (mask i j), (reduced i j); simpl;
      match goal with
      | |- context [Req_dec_T ?a ?b] => destruct (Req_dec_T a b)
      end; try reflexivity; exfalso; lra. }
  split; [exact E|]. intros Hm Hr. now rewrite E, Hm, Hr.
Qed.

Lemma outside_ROI_symmetric_difference_witness :
  mask_none 0%nat 0%nat = false /\ mask_all 0%nat 0%nat = true /\
  outside_ROI mask_none mask_all 0%nat 0%nat = true.
Proof.
  split; [reflexivity | split; [reflexivity|]].
  apply (proj2 (outside_ROI_symmetric_difference mask_none mask_all 0%nat 0%nat));
    reflexivity.
Defined.

(** ** [b1_roi]: shape, rows and degenerate maps *)

(** Whatever the column count of the reshape, a [b1_roi] that is built has
    that many columns, every row has that many entries and a first entry
    that is not zero, and there are at most as many rows as voxels. *)
Theorem b1_roi_invariants (b1_maps : array3) (mask : mask2) (ncols : nat)
    (roi : array2) :
  b1_roi b1_maps mask ncols = Ok roi ->
  ncols2 roi = ncols /\ (0 < ncols)%nat /\
  Forall (fun r => length r = ncols /\ nth 0 r C0 <> C0) (rows2 roi) /\
  (length (rows2 roi) <= dim0 b1_maps * dim1 b1_maps)%nat.
Proof.
  unfold b1_roi, reshape. cbn [dim0 dim1 dim2 mask_mul].
  destruct (Nat.eqb _ _); [|discriminate].
  simpl. unfold rows_col0_nonzero. cbn [ncols2 rows2].
  destruct (Nat.eqb_spec ncols 0) as [E | E]; [discriminate|].
  intros [= <-]. cbn [ncols2 rows2].
  split; [reflexivity | split; [lia | split]].
  - apply Forall_forall. intros r Hr. apply filter_In in Hr as [Hin Hnz].
    split.
    + apply in_map_iff in Hin as [v [<- _]]. now rewrite length_map, length_seq.
    + now apply Cnonzero_true.
  - eapply Nat.le_trans; [apply filter_length_le|].
    now rewrite length_map, length_seq.
Qed.

(** On [b1_three] with the full mask, [b1_roi] keeps the second and the
    third voxel: two rows of two entries, each with first entry 1. *)
Lemma b1_roi_invariants_witness :
  b1_roi b1_three mask_all 2 = Ok (mkArray2 2 [[C1; C0]; [C1; Copp C1]]) /\
  ncols2 (mkArray2 2 [[C1; C0]; [C1; Copp C1]]) = 2%nat /\
  Forall (fun r => length r = 2%nat /\ nth 0 r C0 <> C0)
         (rows2 (mkArray2 2 [[C1; C0]; [C1; Copp C1]])) /\
  (length (rows2 (mkArray2 2 [[C1; C0]; [C1; Copp C1]]))
   <= dim0 b1_three * dim1 b1_three)%nat.
Proof.
  assert (H : b1_roi b1_three mask_all 2
              = Ok (mkArray2 2 [[C1; C0]; [C1; Copp C1]])).
  { change 2%nat with (n_Tx b1_three) at 1.
    rewrite b1_roi_rows by (simpl; lia).
    unfold roi_voxels. simpl.
    rewrite Cnonzero_C0, Cnonzero_C1. reflexivity. }
  split; [exact H|].
  destruct (b1_roi_invariants b1_three mask_all 2 _ H) as [H1 [_ [H3 H4]]].
  split; [exact H1 | split; [exact H3 | exact H4]].
Defined.

(** Degenerate field maps: with no element, [b1_roi] raises [IndexError]
    (column 0 of an array without columns); with no voxel, it is an empty
    matrix for every positive column count, also one that is not the
    element count. *)
Theorem b1_roi_degenerate (b1_maps : array3) (mask : mask2) (ncols : nat) :
  (n_Tx b1_maps = 0%nat -> b1_roi b1_maps mask (n_Tx b1_maps) = Raise IndexError)
  /\ ((dim0 b1_maps * dim1 b1_maps = 0)%nat -> (0 < ncols)%nat ->
      b1_roi b1_maps mask ncols = Ok (mkArray2 ncols [])).
Proof.
  unfold n_Tx, b1_roi, reshape. cbn [dim0 dim1 dim2 mask_mul]. split.
  - intros ->. rewrite !Nat.mul_0_r. reflexivity.
  - intros -> Hc. simpl. unfold rows_col0_nonzero. cbn [ncols2 rows2].
    destruct (Nat.eqb_spec ncols 0) as [E | _]; [lia | reflexivity].
Qed.

Lemma b1_roi_degenerate_witness :
  b1_roi (mkArray3 1 1 0 (fun _ _ _ => C0)) mask_all 0 = Raise IndexError
  /\ b1_roi (mkArray3 0 5 2 (fun _ _ _ => C1)) mask_all 8 = Ok (mkArray2 8 []).
Proof.
  split.
  - apply (proj1 (b1_roi_degenerate (mkArray3 1 1 0 (fun _ _ _ => C0)) mask_all 0)).
    reflexivity.
  - apply (proj2 (b1_roi_degenerate (mkArray3 0 5 2 (fun _ _ _ => C1)) mask_all 8));
      [reflexivity | lia].
Defined.

Lemma b1_roi_column_mismatch_witness :
  8%nat <> n_Tx b1_small /\ (0 < dim0 b1_small * dim1 b1_small)%nat /\
  b1_roi b1_small mask_all 8 = Raise ValueError.
Proof.
  assert (H1 : 8%nat <> n_Tx b1_small) by (simpl; lia).
  assert (H2 : (0 < dim0 b1_small * dim1 b1_small)%nat) by (simpl; lia).
  split; [exact H1 | split; [exact H2|]].
  exact (b1_roi_column_mismatch b1_small mask_all 8 H1 H2).
Defined.

Lemma mask_reduced_extent_witness :
  reduced_axis 19 18 /\ reduced_axis 40 10 /\
  mask_reduced (mkArray3 19 40 1 (fun _ _ _ => C1)) 18%nat 10%nat = true.
Proof.
  assert (H1 : reduced_axis 19 18) by (right; simpl; lia).
  assert (H2 : reduced_axis 40 10) by (left; simpl; lia).
  split; [exact H1 | split; [exact H2|]].
  apply (proj2 (mask_reduced_extent (mkArray3 19 40 1 (fun _ _ _ => C1)) 18%nat 10%nat)).
  split; assumption.
Defined.

Lemma single_pulse_field_and_mask_witness :
  exists b1_sTx,
    combined_field b1_cancel (np.ones (n_Tx b1_cancel)) = Ok b1_sTx /\
    CoV b1_cancel (mask_sum b1_cancel) (np.ones (n_Tx b1_cancel))
    = CoV_nonzero b1_cancel (np.ones (n_Tx b1_cancel)).
Proof.
  destruct (single_pulse_field_and_mask b1_cancel) as [a [Ha [_ Hc]]].
  exists a. split; assumption.
Defined.
